(** * convoy: the asset packager (lib/asset_packager.js)

    A shallow embedding of the packager engine: the per-path source-asset
    cache ([getSourceAsset]), the dependency closure walk
    ([_expandDependencies]), the plugins shipped with the module and the
    memoized [build] / [write] / [invalidate] facade.

    Callback-style functions are written in direct style: a function that
    takes [done] returns a [Completion] saying how [done] was used.  The
    node modules the file requires ([path], [fs], [resolve], the regular
    expressions of the analyzer) are an interface, [Host]; the control-flow
    helpers of the [async] module are written out after async 0.1.x, the
    release line the module was written against. *)

From stdpp Require Import gmap strings list.

Open Scope string_scope.
Open Scope list_scope.
Open Scope nat_scope.

(** ** Values *)

(** JavaScript errors: [Error_ msg] is [new Error(msg)] (also what the host
    modules report), [TypeError msg] is raised by the runtime itself. *)
Inductive Error :=
  | Error_ (msg : string)
  | TypeError (msg : string).

Global Instance Error_eq_dec : EqDecision Error.
Proof. solve_decision. Defined.

(** How a call [f(..., done)] ends. *)
Inductive Completion (A : Type) :=
  | Called (err : option Error) (val : A) (* done(err, val) *)
  | Thrown (e : Error)                    (* an exception escaped *)
  | Parked.                               (* done was kept and never invoked *)
Arguments Called {A} err val.
Arguments Thrown {A} e.
Arguments Parked {A}.

(** The fields of a source asset, as plugins see them. *)
Record SourceAsset := mkSourceAsset {
  sa_path : string;
  sa_body : option string;          (* undefined until a compiler sets it *)
  sa_dependencies : list string
}.

(** An asset object: the fields plus the identity of the object, which is
    what [indexOf] compares. *)
Record Obj := mkObj { oid : nat; fields : SourceAsset }.

Global Instance SourceAsset_eq_dec : EqDecision SourceAsset.
Proof. solve_decision. Defined.
Global Instance Obj_eq_dec : EqDecision Obj.
Proof. solve_decision. Defined.

(** What [done] of [getSourceAsset] is given: [(err, asset)]. *)
Abbreviation SourceResult := (option Error * option Obj)%type.

(** ** Host modules *)

Class Host := {
  FS : Type;
  (* FS.readFile(path, 'utf8', cb) *)
  FS_readFile : string -> FS -> Error + string;
  (* FS.writeFile(path, data, encoding, cb) *)
  FS_writeFile : string -> option string -> string -> FS -> option Error * FS;
  (* PATH.resolve(from, to) *)
  PATH_resolve : string -> string -> string;
  (* PATH.resolve(p) with p possibly undefined *)
  PATH_resolve1 : option string -> Error + string;
  PATH_extname : string -> string;
  PATH_dirname : string -> string;
  (* RESOLVE.sync(id, {extensions, basedir}); throws when nothing matches *)
  RESOLVE_sync : string -> list string -> string -> FS -> Error + string;
  (* the ids captured by /^\s*\/\/=\s+require\s+(.+)\s*$/ on each match of
     body.match(/^\s*\/\/=\s+require\s+.+\s*$/mg); [] when match gives null *)
  scan_requires : string -> list string
}.

(** ** UTILS.once *)

(** Modelled from the spec: [UTILS.once] of lib/utils, which is not among
    the sources.  "A settle-once future/promise-like handle; first caller
    populates it, subsequent callers attach to the same handle"; "each
    entry, once created, transitions at most once from pending to settled
    (success or error) and is never rewritten".  A cell is created running
    (the first caller has started the wrapped function, whose closure state
    is [job]); callers that arrive meanwhile wait; when the function calls
    its [done] the cell settles on those arguments and every later caller
    is answered with them.  A wrapped function that dies with an exception
    leaves the cell unsettled for good. *)
Inductive Cell (J R : Type) :=
  | Running (job : J) (waiters : list nat)
  | Stuck (waiters : list nat)
  | Settled (r : R).
Arguments Running {J R} job waiters.
Arguments Stuck {J R} waiters.
Arguments Settled {J R} r.

Definition once_attach {J R} (cb : nat) (c : Cell J R) : Cell J R :=
  match c with
  | Running j ws => Running j (ws ++ [cb])
  | Stuck ws => Stuck (ws ++ [cb])
  | Settled r => Settled r
  end.

(** ** Configuration and state *)

Section Packager.
Context `{Host}.

(** context.resolve as handed to compilers and analyzers *)
Definition Resolver : Type := string -> string -> Error + string.

(** A compiler or analyzer, [(asset, context, done)]: it may read files and
    resolve module ids, it changes the fields of [asset] in place and calls
    [done(err)]; [val] of the completion is the asset as it left it. *)
Definition SourcePlugin : Type :=
  SourceAsset -> Resolver -> FS -> Completion SourceAsset.

Inductive Event :=
  | EvCompile (key : string)                    (* compiler invoked *)
  | EvAnalyze (key : string)                    (* analyzer invoked *)
  | EvDeliver (key : string) (cb : nat) (r : SourceResult).

(** The part of the packager a plugin reaches through its context: the
    source-asset cache, with the object allocator, the file system and a
    history of plugin calls and deliveries beside it. *)
Record Store := mkStore {
  _sourceAssets : gmap string (Cell Obj SourceResult);
  next_id : nat;
  fs : FS;
  trace : list Event
}.

Record Context := mkContext {
  ctx_resolve : Store -> Resolver;
  ctx_getSourceAsset : string -> Store -> Completion (option Obj) * Store
}.

Record CompositeAsset := mkComposite {
  ca_path : option string;
  ca_assets : list (option Obj);
  ca_body : option string;
  ca_encoding : option string
}.

(** A linker, minifier or postprocessor; [val] of the completion is the
    composite asset as the plugin left it.  A plugin may recurse without a
    bound known in advance: [None] says that the fuel it was given did not
    suffice. *)
Definition CompositePlugin : Type :=
  CompositeAsset -> Context -> Store
  -> option (Completion CompositeAsset * Store).

Inductive Main :=
  | MainUndefined
  | MainString (s : string)
  | MainArray (l : list string).

(** The packager's own properties after the constructor has run: the
    prototype defaults overlaid with the caller's config. *)
Record Config := mkConfig {
  basedir : string;
  compilers : list (string * SourcePlugin);     (* in key order *)
  analyzer : option SourcePlugin;
  linker : option CompositePlugin;
  minify : bool;
  minifier : option CompositePlugin;
  postprocessors : option (list CompositePlugin);
  main : Main;
  path : option string
}.

Definition js_string (s : option string) : string :=
  match s with Some s => s | None => "undefined" end.

(** compilers[ext] *)
Fixpoint compiler_for (cs : list (string * SourcePlugin)) (ext : string)
  : option SourcePlugin :=
  match cs with
  | [] => None
  | (k, c) :: cs' => if decide (k = ext) then Some c else compiler_for cs' ext
  end.

(** AssetPackager.prototype.resolve *)
Definition resolve (cfg : Config) (st_fs : FS) : Resolver :=
  fun moduleId dir =>
    RESOLVE_sync moduleId (map fst (compilers cfg))
                 (if decide (dir = "") then basedir cfg else dir) st_fs.

(** ** Plugins *)

Definition set_body (a : SourceAsset) (b : string) : SourceAsset :=
  mkSourceAsset (sa_path a) (Some b) (sa_dependencies a).

Definition set_dependencies (a : SourceAsset) (d : list string) : SourceAsset :=
  mkSourceAsset (sa_path a) (sa_body a) d.

Definition JavaScriptCompiler : SourcePlugin :=
  fun asset _ disk =>
    match FS_readFile (sa_path asset) disk with
    | inl err => Called (Some err) asset
    | inr data => Called None (set_body asset data)
    end.

(** requires.map(function(line) {...}): the first id that does not resolve
    throws out of the map *)
Fixpoint resolve_all (context_resolve : Resolver) (dir : string)
    (ids : list string) : Error + list string :=
  match ids with
  | [] => inr []
  | id :: rest =>
      match context_resolve id dir with
      | inl e => inl e
      | inr p =>
          match resolve_all context_resolve dir rest with
          | inl e => inl e
          | inr ps => inr (p :: ps)
          end
      end
  end.

Definition JavaScriptAnalyzer : SourcePlugin :=
  fun asset context_resolve _ =>
    match sa_body asset with
    | None => Thrown (TypeError "Cannot call method 'match' of undefined")
    | Some body =>
        match scan_requires body with
        | [] => Called None asset
        | requires =>
            match resolve_all context_resolve (PATH_dirname (sa_path asset))
                              requires with
            | inl e => Called (Some e) asset
            | inr paths => Called None (set_dependencies asset paths)
            end
        end
    end.

(** ** The source-asset cache *)

Definition set_cell (key : string) (c : Cell Obj SourceResult) (st : Store)
  : Store :=
  mkStore (<[key := c]> (_sourceAssets st)) (next_id st) (fs st) (trace st).

Definition log (evs : list Event) (st : Store) : Store :=
  mkStore (_sourceAssets st) (next_id st) (fs st) (trace st ++ evs).

(** the cell's function calls done(err, asset): the cell settles and every
    caller that waited is answered, in arrival order *)
Definition settle (key : string) (r : SourceResult) (ws : list nat)
    (st : Store) : Store :=
  log (map (fun cb => EvDeliver key cb r) ws) (set_cell key (Settled r) st).

(** Lines 159-185: when no cell exists for the resolved path one is created
    and its function started, up to the call of the compiler. *)
Definition gsa_begin (cfg : Config) (assetPath : string) (st : Store) : Store :=
  match _sourceAssets st !! assetPath with
  | Some _ => st
  | None =>
      match compiler_for (compilers cfg) (PATH_extname assetPath),
            analyzer cfg with
      | None, _ =>
          set_cell assetPath
            (Settled (Some (Error_ ("No compiler for " +:+ assetPath)), None)) st
      | Some _, None =>
          set_cell assetPath
            (Settled (Some (Error_ ("No analyzer for " +:+ js_string (path cfg))),
                      None)) st
      | Some _, Some _ =>
          let asset := mkObj (next_id st) (mkSourceAsset assetPath None []) in
          mkStore (<[assetPath := Running asset []]> (_sourceAssets st))
                  (S (next_id st)) (fs st)
                  (trace st ++ [EvCompile assetPath])
      end
  end.

(** Line 187: the cell is called with the caller's done. *)
Definition gsa_attach (assetPath : string) (cb : nat) (st : Store) : Store :=
  match _sourceAssets st !! assetPath with
  | Some (Settled r) => log [EvDeliver assetPath cb r] st
  | Some c => set_cell assetPath (once_attach cb c) st
  | None => st
  end.

(** Lines 178-183: the compiler calls back; on success the analyzer runs
    and the cell settles.  The first component is an exception that
    escaped, if any. *)
Definition gsa_complete (cfg : Config) (assetPath : string) (st : Store)
  : option Error * Store :=
  match _sourceAssets st !! assetPath with
  | Some (Running asset ws) =>
      match compiler_for (compilers cfg) (PATH_extname assetPath),
            analyzer cfg with
      | Some compiler, Some analyzer =>
          match compiler (fields asset) (resolve cfg (fs st)) (fs st) with
          | Called (Some err) _ => (None, settle assetPath (Some err, None) ws st)
          | Called None compiled =>
              let st1 := log [EvAnalyze assetPath] st in
              match analyzer compiled (resolve cfg (fs st)) (fs st) with
              | Called err analyzed =>
                  (None, settle assetPath
                           (err, Some (mkObj (oid asset) analyzed)) ws st1)
              | Thrown e => (Some e, set_cell assetPath (Stuck ws) st1)
              | Parked => (None, set_cell assetPath (Stuck ws) st1)
              end
          | Thrown e => (Some e, set_cell assetPath (Stuck ws) st)
          | Parked => (None, set_cell assetPath (Stuck ws) st)
          end
      | _, _ => (None, st)
      end
  | _ => (None, st)
  end.

(** AssetPackager.prototype.getSourceAsset, run until its done is called. *)
Definition getSourceAsset (cfg : Config) (assetPath : string) (st : Store)
  : Completion (option Obj) * Store :=
  let assetPath := PATH_resolve (basedir cfg) assetPath in
  let st1 := gsa_begin cfg assetPath st in
  let '(escaped, st2) := gsa_complete cfg assetPath st1 in
  match escaped with
  | Some e => (Thrown e, st2)
  | None =>
      match _sourceAssets st2 !! assetPath with
      | Some (Settled (err, asset)) => (Called err asset, st2)
      | _ => (Parked, st2)
      end
  end.

(** The same function under interleaving: callers [Request] an asset and
    keep a callback id, the pending read of a path finishes at [IoDone],
    and files may change in between.  These are the steps of one lifetime
    of the cache; the computations that an invalidate cuts off from the
    cache are followed in [World] below. *)
Inductive Step :=
  | Request (assetPath : string) (cb : nat)
  | IoDone (key : string)
  | FsChange (disk : FS).

Definition step (cfg : Config) (st : Store) (s : Step) : Store :=
  match s with
  | Request assetPath cb =>
      let key := PATH_resolve (basedir cfg) assetPath in
      gsa_attach key cb (gsa_begin cfg key st)
  | IoDone key => snd (gsa_complete cfg key st)
  | FsChange disk =>
      mkStore (_sourceAssets st) (next_id st) disk (trace st)
  end.

Definition run (cfg : Config) (steps : list Step) (st : Store) : Store :=
  foldl (step cfg) st steps.

(** ** Control flow of the async module *)

Section Async.
Context {S : Type}.

Definition Task (A : Type) : Type := S -> option (Completion A * S).

(** ASYNC.forEachSeries(arr, iterator, callback): one element after the
    other; the first error goes to the callback and ends the loop. *)
Fixpoint forEachSeries {A} (arr : list A) (iterator : A -> Task unit)
  : Task unit :=
  fun s =>
    match arr with
    | [] => Some (Called None tt, s)
    | x :: rest =>
        match iterator x s with
        | Some (Called None _, s1) => forEachSeries rest iterator s1
        | Some (Called (Some e) _, s1) => Some (Called (Some e) tt, s1)
        | other => other
        end
    end.

(** ASYNC.mapSeries(arr, iterator, callback): results[i] is stored before
    the error is looked at, so on an error the callback is given the error
    and the results up to and including the failing slot. *)
Fixpoint mapSeries {A B} (arr : list A) (iterator : A -> Task B)
    (results : list B) : Task (list B) :=
  fun s =>
    match arr with
    | [] => Some (Called None results, s)
    | x :: rest =>
        match iterator x s with
        | Some (Called None v, s1) =>
            mapSeries rest iterator (results ++ [v]) s1
        | Some (Called (Some e) v, s1) =>
            Some (Called (Some e) (results ++ [v]), s1)
        | Some (Thrown e, s1) => Some (Thrown e, s1)
        | Some (Parked, s1) => Some (Parked, s1)
        | None => None
        end
    end.

(** ASYNC.map(arr, iterator, callback): every iterator is started, in
    order; the first error reaches the callback (alone), otherwise the
    callback gets the results once all have arrived. *)
Fixpoint map_from {A B} (arr : list A) (iterator : A -> Task B)
    (results : list B) (failed : option Error) (waiting : bool)
  : Task (list B) :=
  fun s =>
    match arr with
    | [] =>
        match failed with
        | Some e => Some (Called (Some e) [], s)
        | None => if waiting then Some (Parked, s)
                  else Some (Called None results, s)
        end
    | x :: rest =>
        match iterator x s with
        | Some (Called err v, s1) =>
            map_from rest iterator (results ++ [v])
                     (match failed with Some e => Some e | None => err end)
                     waiting s1
        | Some (Parked, s1) => map_from rest iterator results failed true s1
        | Some (Thrown e, s1) => Some (Thrown e, s1)
        | None => None
        end
    end.

End Async.

(** ** Closure expansion *)

Record Walk := mkWalk {
  w_store : Store;
  w_seen : list (option Obj);
  w_expanded : list Obj
}.

(** strict equality of two array slots: the same object, or both undefined *)
Definition same_object (a b : option Obj) : bool :=
  match a, b with
  | Some x, Some y => bool_decide (oid x = oid y)
  | None, None => true
  | _, _ => false
  end.

(** seen.indexOf(asset) >= 0 *)
Definition was_seen (seen : list (option Obj)) (asset : option Obj) : bool :=
  existsb (same_object asset) seen.

Definition push_seen (asset : option Obj) (w : Walk) : Walk :=
  mkWalk (w_store w) (w_seen w ++ [asset]) (w_expanded w).

Definition push_expanded (asset : Obj) (w : Walk) : Walk :=
  mkWalk (w_store w) (w_seen w) (w_expanded w ++ [asset]).

Definition in_store {A} (f : Store -> Completion A * Store) : Task (S:=Walk) A :=
  fun w =>
    let '(c, st) := f (w_store w) in
    Some (c, mkWalk st (w_seen w) (w_expanded w)).

(** The iterator that _expandDependencies hands to forEachSeries (lines
    84-101); [recur] is the recursive call of line 96. *)
Definition visit (recur : list (option Obj) -> Task (S:=Walk) (list Obj))
    (context : Context) (asset : option Obj) : Task (S:=Walk) unit :=
  fun w =>
    if was_seen (w_seen w) asset then Some (Called None tt, w)
    else
      let w := push_seen asset w in
      match asset with
      | None =>
          Some (Thrown (TypeError
                  "Cannot read property 'dependencies' of undefined"), w)
      | Some a =>
          if decide (length (sa_dependencies (fields a)) = 0)
          then Some (Called None tt, push_expanded a w)
          else
            match
              mapSeries (sa_dependencies (fields a))
                        (fun p => in_store (ctx_getSourceAsset context p)) [] w
            with
            | Some (Called _ assets, w1) =>
                match recur assets w1 with
                | Some (Called _ _, w2) =>
                    Some (Called None tt, push_expanded a w2)
                | Some (Thrown e, w2) => Some (Thrown e, w2)
                | Some (Parked, w2) => Some (Parked, w2)
                | None => None
                end
            | Some (Thrown e, w1) => Some (Thrown e, w1)
            | Some (Parked, w1) => Some (Parked, w1)
            | None => None
            end
      end.

(** _expandDependencies(context, seen, expanded, deps, done); [fuel] bounds
    the depth of the recursion. *)
Fixpoint _expandDependencies (fuel : nat) (context : Context)
    (deps : list (option Obj)) : Task (S:=Walk) (list Obj) :=
  fun w =>
    match fuel with
    | O => None
    | S fuel' =>
        match
          forEachSeries deps (visit (_expandDependencies fuel' context) context) w
        with
        | Some (Called err _, w') => Some (Called err (w_expanded w'), w')
        | Some (Thrown e, w') => Some (Thrown e, w')
        | Some (Parked, w') => Some (Parked, w')
        | None => None
        end
    end.

Definition newline : string := String (Ascii.ascii_of_nat 10) EmptyString.

(** array.join(sep); undefined elements print as the empty string *)
Definition join (sep : string) (parts : list (option string)) : string :=
  String.concat sep (map (fun p => match p with Some s => s | None => "" end)
                         parts).

Definition set_composite_body (a : CompositeAsset) (b : string)
  : CompositeAsset :=
  mkComposite (ca_path a) (ca_assets a) (Some b) (ca_encoding a).

Definition SimpleMergeLinker (fuel : nat) : CompositePlugin :=
  fun asset context st =>
    match _expandDependencies fuel context (ca_assets asset)
                              (mkWalk st [] []) with
    | Some (Called (Some err) _, w) => Some (Called (Some err) asset, w_store w)
    | Some (Called None expanded, w) =>
        Some (Called None
                (set_composite_body asset
                   (join newline (map (fun a => sa_body (fields a)) expanded))),
              w_store w)
    | Some (Thrown e, w) => Some (Thrown e, w_store w)
    | Some (Parked, w) => Some (Parked, w_store w)
    | None => None
    end.

Definition UglifyMinifier : CompositePlugin :=
  fun asset _ st => Some (Called None asset, st).

(** ** The packager *)

(** What done of build is given: [(err, asset)]. *)
Abbreviation BuildResult := (option Error * option CompositeAsset)%type.

Inductive Stage :=
  | StLink        (* the linker was invoked *)
  | StMinify      (* the minifier was invoked *)
  | StPostprocess (i : nat)   (* the i-th postprocessor was invoked *)
  | StWriteFile (file : string) (data : option string) (encoding : string).

(** The packager object: the cache plugins can reach, the build cell, and a
    history of the stages it ran. *)
Record Packager := mkPackager {
  store : Store;
  _build : option (Cell unit BuildResult);
  stages : list Stage
}.

Definition context_of (cfg : Config) : Context :=
  mkContext (fun st => resolve cfg (fs st)) (getSourceAsset cfg).

Definition _reset (p : Packager) : Packager :=
  mkPackager
    (mkStore ∅ (next_id (store p)) (fs (store p)) (trace (store p)))
    None (stages p).

(** AssetPackager.prototype.invalidate *)
Definition invalidate (p : Packager) : Packager := _reset p.

Definition with_store (p : Packager) (st : Store) : Packager :=
  mkPackager st (_build p) (stages p).

Definition stage (s : Stage) (p : Packager) : Packager :=
  mkPackager (store p) (_build p) (stages p ++ [s]).

Definition main_is_falsy (m : Main) : bool :=
  match m with
  | MainUndefined => true
  | MainString s => bool_decide (s = "")
  | MainArray _ => false
  end.

Definition not_a_function : Error := TypeError "undefined is not a function".

(** The function that build wraps in UTILS.once (lines 227-273). *)
Definition build_body (cfg : Config) (p : Packager)
  : option (Completion (option CompositeAsset) * Packager) :=
  let err :=
    if main_is_falsy (main cfg) then
      Some (Error_ ("Main module not specified for " +:+ js_string (path cfg)))
    else if negb (bool_decide (is_Some (linker cfg))) then
      Some (Error_ ("Linker not found for " +:+ js_string (path cfg)))
    else if negb (bool_decide (is_Some (minifier cfg))) && minify cfg then
      Some (Error_ ("Minifier not found for " +:+ js_string (path cfg)))
    else None in
  (* normalize some params *)
  let main_ :=
    match main cfg with
    | MainString s => Some [s]
    | MainArray l => Some l
    | MainUndefined => None
    end in
  let postprocessors_ :=
    match postprocessors cfg with Some l => l | None => [] end in
  (* ASYNC.waterfall *)
  match main_ with
  | None => Some (Thrown (TypeError "Cannot read property 'map' of undefined"), p)
  | Some paths =>
      match
        map_from paths
          (fun path_ st =>
             match resolve cfg (fs st) path_ (basedir cfg) with
             | inl e => Some (Thrown e, st)
             | inr resolved => Some (getSourceAsset cfg resolved st)
             end)
          [] None false (store p)
      with
      | None => None
      | Some (Thrown e, st1) => Some (Thrown e, with_store p st1)
      | Some (Parked, st1) => Some (Parked, with_store p st1)
      | Some (Called (Some e) _, st1) =>
          Some (Called (Some e) None, with_store p st1)
      | Some (Called None assets, st1) =>
          let asset := mkComposite (path cfg) assets None None in
          match linker cfg with
          | None => Some (Thrown not_a_function, with_store p st1)
          | Some linker_ =>
              let p1 := stage StLink (with_store p st1) in
              match linker_ asset (context_of cfg) st1 with
              | None => None
              | Some (Thrown e, st2) => Some (Thrown e, with_store p1 st2)
              | Some (Parked, st2) => Some (Parked, with_store p1 st2)
              | Some (Called (Some e) _, st2) =>
                  Some (Called (Some e) None, with_store p1 st2)
              | Some (Called None linked, st2) =>
                  if minify cfg then
                    match minifier cfg with
                    | None => Some (Thrown not_a_function, with_store p1 st2)
                    | Some minifier_ =>
                        let p2 := stage StMinify (with_store p1 st2) in
                        match minifier_ linked (context_of cfg) st2 with
                        | None => None
                        | Some (Thrown e, st3) =>
                            Some (Thrown e, with_store p2 st3)
                        | Some (Parked, st3) => Some (Parked, with_store p2 st3)
                        | Some (Called err_ minified, st3) =>
                            Some (Called err_ (Some minified),
                                  with_store p2 st3)
                        end
                    end
                  else Some (Called None (Some linked), with_store p1 st2)
              end
          end
      end
  end.

Definition set_build (c : Cell unit BuildResult) (p : Packager) : Packager :=
  mkPackager (store p) (Some c) (stages p).

(** AssetPackager.prototype.build *)
Definition build (cfg : Config) (p : Packager)
  : option (Completion (option CompositeAsset) * Packager) :=
  match _build p with
  | Some (Settled (err, asset)) => Some (Called err asset, p)
  | Some _ => Some (Parked, p)
  | None =>
      match build_body cfg (set_build (Running tt []) p) with
      | None => None
      | Some (Called err asset, p') =>
          Some (Called err asset, set_build (Settled (err, asset)) p')
      | Some (Thrown e, p') => Some (Thrown e, set_build (Stuck []) p')
      | Some (Parked, p') => Some (Parked, p')
      end
  end.

(** An argument of write as the caller passed it. *)
Inductive Arg :=
  | ArgUndefined
  | ArgString (s : string)
  | ArgFunction (cb : nat).

Definition arg_is_falsy (a : Arg) : bool :=
  match a with
  | ArgUndefined => true
  | ArgString s => bool_decide (s = "")
  | ArgFunction _ => false
  end.

Definition arg_of_option (o : option string) : Arg :=
  match o with Some s => ArgString s | None => ArgUndefined end.

Definition string_of_arg (a : Arg) : option string :=
  match a with ArgString s => Some s | _ => None end.

(** done(args) where done is whatever the caller passed *)
Definition call (done : Arg) (err : option Error) : Completion nat :=
  match done with
  | ArgFunction cb => Called err cb
  | _ => Thrown not_a_function
  end.

Definition write_file (file : string) (data : option string)
    (encoding : string) (p : Packager) : option Error * Packager :=
  let '(err, disk) := FS_writeFile file data encoding (fs (store p)) in
  (err,
   stage (StWriteFile file data encoding)
     (with_store p (mkStore (_sourceAssets (store p)) (next_id (store p))
                            disk (trace (store p))))).

(** AssetPackager.prototype.write; [val] of the completion names the
    callback that was called. *)
Definition write (cfg : Config) (outputPath done : Arg) (p : Packager)
  : option (Completion nat * Packager) :=
  let '(outputPath, done) :=
    match outputPath with
    | ArgFunction _ =>
        if arg_is_falsy done then (ArgUndefined, outputPath)
        else (outputPath, done)
    | _ => (outputPath, done)
    end in
  let outputPath :=
    if arg_is_falsy outputPath then arg_of_option (path cfg)
    else outputPath in
  match PATH_resolve1 (string_of_arg outputPath) with
  | inl e => Some (Thrown e, p)
  | inr outputPath =>
      match build cfg p with
      | None => None
      | Some (Thrown e, p1) => Some (Thrown e, p1)
      | Some (Parked, p1) => Some (Parked, p1)
      | Some (Called (Some err) _, p1) => Some (call done (Some err), p1)
      | Some (Called None None, p1) =>
          Some (Thrown (TypeError "Cannot read property 'body' of undefined"),
                p1)
      | Some (Called None (Some asset), p1) =>
          let encoding :=
            match ca_encoding asset with
            | Some e => if decide (e = "") then "utf8" else e
            | None => "utf8"
            end in
          let '(err, p2) := write_file outputPath (ca_body asset) encoding p1 in
          match done with
          | ArgFunction cb => Some (Called err cb, p2)
          | _ => Some (Parked, p2)
          end
      end
  end.

(** The properties of AssetPackager.prototype. *)
Definition prototype (fuel : nat) : Config :=
  mkConfig "." [(".js", JavaScriptCompiler)] (Some JavaScriptAnalyzer)
           (Some (SimpleMergeLinker fuel)) false None None MainUndefined None.

(** new AssetPackager(config), [cfg] being the prototype overlaid with
    config: basedir is made absolute and the caches are reset. *)
Definition AssetPackager (cfg : Config) (disk : FS)
  : Error + (Config * Packager) :=
  match PATH_resolve1 (Some (basedir cfg)) with
  | inl e => inl e
  | inr dir =>
      inr (mkConfig dir (compilers cfg) (analyzer cfg) (linker cfg)
                    (minify cfg) (minifier cfg) (postprocessors cfg)
                    (main cfg) (path cfg),
           _reset (mkPackager (mkStore ∅ 0 disk []) None []))
  end.

End Packager.

(** ** Vocabulary of the specifications *)

Section Vocabulary.
Context `{Host}.

(** getSourceAsset from line 159 on, the path being resolved already *)
Definition fetch (cfg : Config) (key : string) (st : Store)
  : Completion (option Obj) * Store :=
  let st1 := gsa_begin cfg key st in
  let '(escaped, st2) := gsa_complete cfg key st1 in
  match escaped with
  | Some e => (Thrown e, st2)
  | None =>
      match _sourceAssets st2 !! key with
      | Some (Settled (err, asset)) => (Called err asset, st2)
      | _ => (Parked, st2)
      end
  end.

(** the cell of [key] has settled on the object [o] *)
Definition cached (st : Store) (key : string) (o : Obj) : Prop :=
  ∃ err, _sourceAssets st !! key = Some (Settled (err, Some o)).

(** the fields of the asset that a request for [key] yields without error *)
Definition peek (cfg : Config) (st : Store) (key : string)
  : option SourceAsset :=
  match fst (fetch cfg key st) with
  | Called None (Some o) => Some (fields o)
  | _ => None
  end.

(** the resolved paths [key] depends on *)
Definition edges (cfg : Config) (st : Store) (key : string) : list string :=
  match peek cfg st key with
  | Some f => map (PATH_resolve (basedir cfg)) (sa_dependencies f)
  | None => []
  end.

(** [U] is a dependency set: each of its paths yields an asset, and the
    dependencies of that asset are in [U] again *)
Definition closed (cfg : Config) (U : list string) (st : Store) : Prop :=
  ∀ k, k ∈ U →
    ∃ f, peek cfg st k = Some f ∧
         ∀ p, p ∈ sa_dependencies f → PATH_resolve (basedir cfg) p ∈ U.

Definition acyclic (cfg : Config) (U : list string) (st : Store) : Prop :=
  ∀ k, k ∈ U → ¬ tc (λ a b, b ∈ edges cfg st a) k k.

Definition cell_obj (c : Cell Obj SourceResult) : option Obj :=
  match c with
  | Running job _ => Some job
  | Stuck _ => None
  | Settled (_, v) => v
  end.

(** object identities are handed out once: those in the cache are below the
    allocator and differ from path to path *)
Definition wf (st : Store) : Prop :=
  (∀ k c o, _sourceAssets st !! k = Some c → cell_obj c = Some o →
            oid o < next_id st) ∧
  (∀ k1 k2 c1 c2 o1 o2,
     _sourceAssets st !! k1 = Some c1 → _sourceAssets st !! k2 = Some c2 →
     cell_obj c1 = Some o1 → cell_obj c2 = Some o2 →
     oid o1 = oid o2 → k1 = k2).

(** [deps] are the cached objects of the paths [ks] *)
Definition assets_of (st : Store) (ks : list string)
    (deps : list (option Obj)) : Prop :=
  Forall2 (λ k d, ∃ o, d = Some o ∧ cached st k o) ks deps.

Definition is_compile (key : string) (e : Event) : bool :=
  match e with EvCompile k => bool_decide (k = key) | _ => false end.

Definition is_analyze (key : string) (e : Event) : bool :=
  match e with EvAnalyze k => bool_decide (k = key) | _ => false end.

Definition count (f : Event → bool) (evs : list Event) : nat :=
  length (List.filter f evs).

(** what happened since the store was [st0] *)
Definition since (st0 st : Store) : list Event :=
  drop (length (trace st0)) (trace st).

(** a compiler that leaves path and dependencies of the asset alone *)
Definition keeps_identity (c : SourcePlugin) : Prop :=
  ∀ a r disk err v,
    c a r disk = Called err v →
    sa_path v = sa_path a ∧ sa_dependencies v = sa_dependencies a.

(** the path write hands to PATH.resolve *)
Definition output_path (cfg : Config) (outputPath : Arg) : option string :=
  string_of_arg (if arg_is_falsy outputPath then arg_of_option (path cfg)
                 else outputPath).

(** asset.encoding || 'utf8' *)
Definition encoding_of (asset : CompositeAsset) : string :=
  match ca_encoding asset with
  | Some e => if decide (e = "") then "utf8" else e
  | None => "utf8"
  end.

Definition is_stage (s : Stage) (x : Stage) : bool :=
  match s, x with
  | StLink, StLink | StMinify, StMinify => true
  | StPostprocess _, StPostprocess _ => true
  | _, _ => false
  end.

(** how often a stage was run *)
Definition times (s : Stage) (l : list Stage) : nat :=
  length (List.filter (is_stage s) l).

(** what the cache holds for a path was produced from that path *)
Definition cell_ok (k : string) (c : Cell Obj SourceResult) : Prop :=
  match c with
  | Running job _ => fields job = mkSourceAsset k None []
  | Settled (None, Some o) =>
      sa_path (fields o) = k ∧
      ∃ b, sa_body (fields o) = Some b ∧
           (scan_requires b = [] → sa_dependencies (fields o) = [])
  | _ => True
  end.

Definition cache_ok (st : Store) : Prop :=
  ∀ k c, _sourceAssets st !! k = Some c → cell_ok k c.

(** the events that concern the cell of [k] *)
Definition about (k : string) (e : Event) : Prop :=
  match e with
  | EvCompile k' | EvAnalyze k' | EvDeliver k' _ _ => k' = k
  end.

(** what may have happened to the cell of [key], given its present state *)
Definition cell_history (key : string) (c : option (Cell Obj SourceResult))
    (evs : list Event) : Prop :=
  count (is_compile key) evs ≤ 1 ∧ count (is_analyze key) evs ≤ 1 ∧
  match c with
  | None =>
      count (is_compile key) evs = 0 ∧ count (is_analyze key) evs = 0 ∧
      ∀ cb r, EvDeliver key cb r ∉ evs
  | Some (Running _ _) =>
      count (is_analyze key) evs = 0 ∧ ∀ cb r, EvDeliver key cb r ∉ evs
  | Some (Stuck _) => ∀ cb r, EvDeliver key cb r ∉ evs
  | Some (Settled r) => ∀ cb r', EvDeliver key cb r' ∈ evs → r' = r
  end.

(** the history of the store since its trace was [base] *)
Definition history (base : list Event) (st : Store) : Prop :=
  ∃ evs, trace st = base ++ evs ∧
         ∀ key, cell_history key (_sourceAssets st !! key) evs.

(** the asset a delivery hands over without error, without its identity *)
Definition strip (c : Completion (option Obj)) : option SourceAsset :=
  match c with
  | Called None (Some o) => Some (fields o)
  | _ => None
  end.

(** what compiler and analyzer make of the asset of a running cell *)
Definition finish (cfg : Config) (disk : FS) (key : string) (job : Obj)
  : Completion (option Obj) :=
  match compiler_for (compilers cfg) (PATH_extname key), analyzer cfg with
  | Some compiler, Some analyzer =>
      match compiler (fields job) (resolve cfg disk) disk with
      | Called (Some err) _ => Called (Some err) None
      | Called None compiled =>
          match analyzer compiled (resolve cfg disk) disk with
          | Called err analyzed => Called err (Some (mkObj (oid job) analyzed))
          | Thrown e => Thrown e
          | Parked => Parked
          end
      | Thrown e => Thrown e
      | Parked => Parked
      end
  | _, _ => Parked
  end.

(** how a request for [key] ends, read off the cell, the files and the
    identity the next object would get *)
Definition answer (cfg : Config) (disk : FS) (key : string)
    (c : option (Cell Obj SourceResult)) (fresh : nat)
  : Completion (option Obj) :=
  match c with
  | Some (Settled (err, v)) => Called err v
  | Some (Stuck _) => Parked
  | Some (Running job _) => finish cfg disk key job
  | None =>
      match compiler_for (compilers cfg) (PATH_extname key), analyzer cfg with
      | None, _ => Called (Some (Error_ ("No compiler for " +:+ key))) None
      | Some _, None =>
          Called (Some (Error_ ("No analyzer for " +:+ js_string (path cfg))))
                 None
      | Some _, Some _ =>
          finish cfg disk key (mkObj fresh (mkSourceAsset key None []))
      end
  end.

(** the store after some more requests: what was cached stays cached, every
    path still yields the same asset, identities stay in order *)
Definition grows (cfg : Config) (st st' : Store) : Prop :=
  (∀ k o, cached st k o → cached st' k o) ∧
  (∀ k, peek cfg st' k = peek cfg st k) ∧
  (wf st → wf st').

(** the dependency relation between resolved paths *)
Definition depends (cfg : Config) (st : Store) (a b : string) : Prop :=
  b ∈ edges cfg st a.

(** every path of [es] comes after the paths it depends on, but for those
    that depend on it in turn *)
Definition ordered (cfg : Config) (st0 : Store) (es : list string) : Prop :=
  ∀ es1 k es2, es = es1 ++ k :: es2 →
    ∀ k', depends cfg st0 k k' → k' ∈ es1 ∨ rtc (depends cfg st0) k' k.

(** a walk over the dependency set [U] of the store [st0], having seen the
    assets of the paths [ks] and expanded those of [es] *)
Definition walking (cfg : Config) (U : list string) (st0 : Store)
    (ks es : list string) (w : Walk) : Prop :=
  wf (w_store w) ∧
  (∀ k, peek cfg (w_store w) k = peek cfg st0 k) ∧
  assets_of (w_store w) ks (w_seen w) ∧
  Forall2 (cached (w_store w)) es (w_expanded w) ∧
  NoDup ks ∧ (∀ k, k ∈ ks → k ∈ U) ∧
  NoDup es ∧ (∀ k, k ∈ es → k ∈ ks).

(** what a walk over the assets of [dks] has reached *)
Definition walked (cfg : Config) (U : list string) (st0 : Store)
    (ks es dks : list string) (w w' : Walk) : Prop :=
  ∃ new new',
    walking cfg U st0 (ks ++ new') (es ++ new) w' ∧
    new ≡ₚ new' ∧
    (∀ k, k ∈ dks → k ∈ ks ++ new') ∧
    ordered cfg st0 (es ++ new) ∧
    (∀ k o, cached (w_store w) k o → cached (w_store w') k o).

(** [f], given fuel [n], walks the assets of any paths of [U] to the end,
    whatever has been seen before, and returns [ret] *)
Definition walks {A} (cfg : Config) (U : list string) (st0 : Store)
    (f : list (option Obj) → Task (S:=Walk) A) (n : nat)
    (ret : Walk → A → Prop) : Prop :=
  ∀ deps dks w ks es,
    walking cfg U st0 ks es w →
    assets_of (w_store w) dks deps →
    (∀ k, k ∈ dks → k ∈ U) →
    length U < n + length ks →
    (∀ s, s ∈ ks → s ∉ es → ∀ d, d ∈ dks → tc (depends cfg st0) s d) →
    ordered cfg st0 es →
    ∃ v w', f deps w = Some (Called None v, w') ∧ ret w' v ∧
            walked cfg U st0 ks es dks w w'.

(** [expanded] lists no object twice, and every asset in it comes after
    the assets of all its dependencies *)
Definition post_order (cfg : Config) (st : Store) (expanded : list Obj)
  : Prop :=
  NoDup (map oid expanded) ∧
  ∀ i a p, expanded !! i = Some a → p ∈ sa_dependencies (fields a) →
    ∃ j d, j < i ∧ expanded !! j = Some d ∧
           cached st (PATH_resolve (basedir cfg) p) d.

(** [closed], decided path by path *)
Definition closedb (cfg : Config) (U : list string) (st : Store) : bool :=
  forallb (λ k, match peek cfg st k with
                | Some f =>
                    forallb (λ p, bool_decide (PATH_resolve (basedir cfg) p ∈ U))
                            (sa_dependencies f)
                | None => false
                end) U.

(** every path of [U] ranks above the paths it depends on *)
Definition rankedb (cfg : Config) (U : list string) (st : Store)
    (rank : string → nat) : bool :=
  forallb (λ k, forallb (λ k', rank k' <? rank k) (edges cfg st k)) U.

End Vocabulary.

(** ** Further vocabulary *)

Section Outcomes.
Context `{Host}.

(** the callback was given an error *)
Definition calls_back_with_error {A S : Type}
    (r : option (Completion A * S)) : bool :=
  match r with
  | Some (Called (Some _) _, _) => true
  | _ => false
  end.

(** some object of [seen] is the object [i] *)
Definition holds (seen : list (option Obj)) (i : nat) : Prop :=
  ∃ o, Some o ∈ seen ∧ oid o = i.

(** the arrays of a walk in whose course the objects [stack] are being
    expanded: nothing is expanded twice, what is expanded or being expanded
    has been seen, and what is being expanded is not expanded yet *)
Definition tidy (stack : list nat) (w : Walk) : Prop :=
  NoDup (map oid (w_expanded w)) ∧
  (∀ a, a ∈ w_expanded w → holds (w_seen w) (oid a)) ∧
  (∀ a, a ∈ w_expanded w → oid a ∉ stack) ∧
  (∀ i, i ∈ stack → holds (w_seen w) i).

(** what a step or a walk does to the arrays: they stay tidy and are only
    appended to *)
Definition keeps (stack : list nat) (w : Walk) {A}
    (r : option (Completion A * Walk)) : Prop :=
  match r with
  | Some (_, w') =>
      tidy stack w' ∧
      w_seen w `prefix_of` w_seen w' ∧
      w_expanded w `prefix_of` w_expanded w'
  | None => True
  end.

(** every object in [seen] is expanded or still being expanded *)
Definition covered (stack : list nat) (w : Walk) : Prop :=
  (None ∉ w_seen w) ∧
  ∀ i, holds (w_seen w) i → i ∈ map oid (w_expanded w) ∨ i ∈ stack.

(** a walk over [deps] that calls back has seen all of them *)
Definition completes (stack : list nat) (deps : list (option Obj)) {A}
    (r : option (Completion A * Walk)) : Prop :=
  match r with
  | Some (Called _ _, w') =>
      covered stack w' ∧
      ∀ d, d ∈ deps → ∃ o, d = Some o ∧ holds (w_seen w') (oid o)
  | _ => True
  end.

(** the packager after its files have changed to [disk] *)
Definition touch (disk : FS) (p : Packager) : Packager :=
  mkPackager (mkStore (_sourceAssets (store p)) (next_id (store p)) disk
                      (trace (store p)))
             (_build p) (stages p).

(** a store whose files are [disk] *)
Definition with_files (disk : FS) (st : Store) : Store :=
  mkStore (_sourceAssets st) (next_id st) disk (trace st).

(** *** Cache lifetimes *)

(** A computation of getSourceAsset under way: the function of lines
    161-184 holds its asset, and its once-cell the callers that wait,
    whether or not the cache still leads to the cell. *)
Record Job := mkJob {
  j_key : string;
  j_asset : Obj;
  j_waiters : list nat
}.

(** The packager, the computations that an invalidate has cut off from its
    cache, and what those have done since. *)
Record World := mkWorld {
  now : Packager;
  detached : list Job;
  stale : list Event
}.

Definition running (kc : string * Cell Obj SourceResult) : option Job :=
  match kc with
  | (k, Running job ws) => Some (mkJob k job ws)
  | _ => None
  end.

(** invalidate (lines 308-310) puts a new map in place of the cache; the
    computations under way keep their cells and go on *)
Definition renew (w : World) : World :=
  mkWorld (invalidate (now w))
          (detached w
           ++ omap running (map_to_list (_sourceAssets (store (now w)))))
          (stale w).

(** the cell of a detached computation, which only the computation and its
    callers still hold *)
Definition alone (j : Job) (st : Store) : Store :=
  mkStore {[ j_key j := Running (j_asset j) (j_waiters j) ]}
          (next_id st) (fs st) [].

(** what happens within a lifetime of the cache: a step of the cache, or
    the read of a detached computation finishes *)
Inductive Move :=
  | Do (s : Step)
  | Late (i : nat).

Definition move (cfg : Config) (w : World) (m : Move) : World :=
  match m with
  | Do s =>
      mkWorld (with_store (now w) (step cfg (store (now w)) s))
              (detached w) (stale w)
  | Late i =>
      match detached w !! i with
      | Some j =>
          mkWorld (now w) (delete i (detached w))
                  (stale w
                   ++ trace (snd (gsa_complete cfg (j_key j)
                                    (alone j (store (now w))))))
      | None => w
      end
  end.

Definition play (cfg : Config) (moves : list Move) (w : World) : World :=
  foldl (move cfg) w moves.

(** the cache after [moves] of the lifetime that begins when [w0] is
    invalidated, and what the computations of that lifetime have done *)
Definition cache_after (cfg : Config) (w0 : World) (moves : list Move)
  : Store :=
  store (now (play cfg moves (renew w0))).

Definition events_after (cfg : Config) (w0 : World) (moves : list Move)
  : list Event :=
  since (store (now (renew w0))) (cache_after cfg w0 moves).

(** the callers of the lifetime, by resolved path *)
Definition asked_of (cfg : Config) (moves : list Move) : list (string * nat) :=
  omap (λ m, match m with
             | Do (Request assetPath cb) =>
                 Some (PATH_resolve (basedir cfg) assetPath, cb)
             | _ => None
             end) moves.

(** the caller [cb] of [key] has its answer, the result of the cell, or
    waits in the cell *)
Definition served (key : string) (cb : nat)
    (c : option (Cell Obj SourceResult)) (evs : list Event) : Prop :=
  match c with
  | Some (Settled r) => EvDeliver key cb r ∈ evs
  | Some (Running _ ws) | Some (Stuck ws) => cb ∈ ws
  | None => False
  end.

Definition has_plugins (cfg : Config) (key : string) : Prop :=
  is_Some (compiler_for (compilers cfg) (PATH_extname key))
  ∧ is_Some (analyzer cfg).

(** the work a cell stands for has been done, once *)
Definition cell_work (cfg : Config) (key : string)
    (c : option (Cell Obj SourceResult)) (evs : list Event) : Prop :=
  match c with
  | None => True
  | Some (Settled (_, Some _)) =>
      count (is_compile key) evs = 1 ∧ count (is_analyze key) evs = 1
  | Some (Settled (_, None)) =>
      has_plugins cfg key → count (is_compile key) evs = 1
  | Some _ => count (is_compile key) evs = 1
  end.

(** the cells account for the work done and for the callers [asked] *)
Definition tally (cfg : Config) (base : list Event)
    (asked : list (string * nat)) (st : Store) : Prop :=
  ∃ evs, trace st = base ++ evs ∧
    ∀ key, cell_work cfg key (_sourceAssets st !! key) evs ∧
           ∀ cb, (key, cb) ∈ asked →
                 served key cb (_sourceAssets st !! key) evs.

End Outcomes.

(** ** A small host for worked examples

    Files live in a finite map from absolute paths to contents; paths are
    kept in normal form, so resolving only joins directory and name; a
    require directive is a line that starts with [//= require ]. *)
Module Demo.

Definition absolute (p : string) : bool := String.prefix "/" p.

Definition join_path (dir name : string) : string :=
  if absolute name then name
  else if decide (dir = "/") then "/" +:+ name
  else dir +:+ "/" +:+ name.

(** [cut_last c s acc cur]: the text of [s] before the last [c] and the text
    from it on, when [c] occurs *)
Fixpoint cut_last (c : Ascii.ascii) (s : string) (before : string)
    (found : option (string * string)) : option (string * string) :=
  match s with
  | EmptyString => found
  | String a rest =>
      cut_last c rest (before +:+ String a EmptyString)
        (if decide (a = c) then Some (before, s) else found)
  end.

Definition slash : Ascii.ascii := Ascii.ascii_of_nat 47.
Definition dot : Ascii.ascii := Ascii.ascii_of_nat 46.

Definition basename (p : string) : string :=
  match cut_last slash p "" None with
  | Some (_, String _ name) => name
  | _ => p
  end.

Definition dirname (p : string) : string :=
  match cut_last slash p "" None with
  | Some ("", _) => "/"
  | Some (dir, _) => dir
  | None => "."
  end.

Definition extname (p : string) : string :=
  match cut_last dot (basename p) "" None with
  | Some ("", _) => ""
  | Some (_, ext) => ext
  | None => ""
  end.

Definition strip_dot_slash (id : string) : string :=
  if String.prefix "./" id then String.substring 2 (String.length id - 2) id
  else id.

Fixpoint first_existing (candidates : list string) (disk : gmap string string)
  : option string :=
  match candidates with
  | [] => None
  | c :: rest =>
      if decide (is_Some (disk !! c)) then Some c
      else first_existing rest disk
  end.

Definition resolve_sync (id : string) (extensions : list string)
    (dir : string) (disk : gmap string string) : Error + string :=
  let base := join_path dir (strip_dot_slash id) in
  match first_existing (base :: map (fun e => base +:+ e) extensions) disk with
  | Some p => inr p
  | None => inl (Error_ ("Cannot find module '" +:+ id +:+ "'"))
  end.

Fixpoint lines_from (s : string) (cur : string) : list string :=
  match s with
  | EmptyString => [cur]
  | String a rest =>
      if decide (a = Ascii.ascii_of_nat 10) then cur :: lines_from rest ""
      else lines_from rest (cur +:+ String a EmptyString)
  end.

Definition directive : string := "//= require ".

Definition scan (body : string) : list string :=
  omap (fun l =>
          if String.prefix directive l
          then Some (String.substring (String.length directive)
                       (String.length l - String.length directive) l)
          else None)
       (lines_from body "").

#[local] Instance host : Host := {|
  FS := gmap string string;
  FS_readFile p disk :=
    match disk !! p with
    | Some data => inr data
    | None => inl (Error_ ("ENOENT, open '" +:+ p +:+ "'"))
    end;
  FS_writeFile p data _ disk := (None, <[p := js_string data]> disk);
  PATH_resolve := join_path;
  PATH_resolve1 p :=
    match p with
    | Some p => inr (join_path "/" p)
    | None => inl (TypeError "Arguments to path.resolve must be strings")
    end;
  PATH_extname := extname;
  PATH_dirname := dirname;
  RESOLVE_sync := resolve_sync;
  scan_requires := scan
|}.

Definition file (name : string) (requires : list string) (code : string)
  : string * string :=
  (name, String.concat "" (map (fun r => directive +:+ r +:+ newline) requires)
         +:+ code).

(** A -> {B, C}, B -> D, C -> D *)
Definition diamond : gmap string string :=
  list_to_map [ file "/A.js" ["./B"; "./C"] "a;";
                file "/B.js" ["./D"] "b;";
                file "/C.js" ["./D"] "c;";
                file "/D.js" [] "d;" ].

Definition config (fuel : nat) (entry : Main) : Config :=
  mkConfig "/" [(".js", JavaScriptCompiler)] (Some JavaScriptAnalyzer)
           (Some (SimpleMergeLinker fuel)) false None None entry
           (Some "/out.js").

Definition fresh (disk : gmap string string) : Packager :=
  mkPackager (mkStore ∅ 0 disk []) None [].

Definition configure (linker_ : option CompositePlugin) (minify_ : bool)
    (minifier_ : option CompositePlugin)
    (postprocessors_ : option (list CompositePlugin)) (entry : Main) : Config :=
  mkConfig "/" [(".js", JavaScriptCompiler)] (Some JavaScriptAnalyzer)
           linker_ minify_ minifier_ postprocessors_ entry (Some "/out.js").

(** packagers that lack a required property *)
Definition no_main : Config :=
  configure (Some (SimpleMergeLinker 10)) false None None MainUndefined.
Definition no_linker : Config :=
  configure None false None None (MainString "./A").
Definition no_minifier : Config :=
  configure (Some (SimpleMergeLinker 10)) true None None (MainString "./A").

(** a postprocessor that puts a banner in front of the body *)
Definition banner : CompositePlugin :=
  fun asset _ st =>
    Some (Called None
            (set_composite_body asset ("/* banner */" +:+ js_string (ca_body asset))),
          st).
Definition with_banner : Config :=
  configure (Some (SimpleMergeLinker 10)) false None (Some [banner])
            (MainString "./A").

(** every stage configured and enabled *)
Definition full_pipeline : Config :=
  configure (Some (SimpleMergeLinker 10)) true (Some UglifyMinifier)
            (Some [banner]) (MainString "./A").

(** A requires B, and B requires a module that does not exist *)
Definition dangling : gmap string string :=
  list_to_map [ file "/A.js" ["./B"] "a;";
                file "/B.js" ["./missing"] "b;" ].

(** A requires a file for whose extension no compiler is registered *)
Definition uncompilable : gmap string string :=
  list_to_map [ file "/A.js" ["./notes.txt"] "a;";
                ("/notes.txt", "n") ].

(** A requires itself; P and Q require each other *)
Definition cyclic : gmap string string :=
  list_to_map [ file "/A.js" ["./A"; "./P"] "a;";
                file "/P.js" ["./Q"] "p;";
                file "/Q.js" ["./P"] "q;" ].

Definition entry_A (fuel : nat) : Config := config fuel (MainString "./A").

(** what a build delivered: the error, the body, and the stages run *)
Definition delivered (r : option (Completion (option CompositeAsset) * Packager))
  : option (Completion (option string) * list Stage) :=
  match r with
  | Some (Called err (Some a), p) => Some (Called err (ca_body a), stages p)
  | Some (Called err None, p) => Some (Called err None, stages p)
  | Some (Thrown e, p) => Some (Thrown e, stages p)
  | Some (Parked, p) => Some (Parked, stages p)
  | None => None
  end.

(** build, then build again on what the first call left *)
Definition build_twice (cfg : Config) (p : Packager)
  : option (Completion (option CompositeAsset) * Packager) :=
  match build cfg p with
  | Some (_, p1) => build cfg p1
  | None => None
  end.

(** the store once the entry point /A.js has been fetched, as build does
    before it calls the linker *)
Definition loaded (disk : gmap string string) : Store :=
  snd (getSourceAsset (entry_A 10) "/A.js" (store (fresh disk))).

(** the entry point of the diamond, as fetched *)
Definition diamond_A : Obj :=
  mkObj 0 (mkSourceAsset "/A.js"
             (Some (snd (file "/A.js" ["./B"; "./C"] "a;")))
             ["/B.js"; "/C.js"]).

Definition diamond_paths : list string :=
  ["/A.js"; "/B.js"; "/C.js"; "/D.js"].

Definition diamond_rank (k : string) : nat :=
  if decide (k = "/A.js") then 2
  else if decide (k = "/D.js") then 0 else 1.

(** the entry point of the cyclic set, as fetched *)
Definition cyclic_A : Obj :=
  mkObj 0 (mkSourceAsset "/A.js"
             (Some (snd (file "/A.js" ["./A"; "./P"] "a;")))
             ["/A.js"; "/P.js"]).

Definition cyclic_paths : list string := ["/A.js"; "/P.js"; "/Q.js"].

(** the diamond after /D.js has been edited *)
Definition edited : gmap string string := <["/D.js" := "d2;"]> diamond.

(** two callers ask for /D.js before its read has finished *)
Definition two_callers : list Move :=
  [Do (Request "/D.js" 1); Do (Request "D.js" 2); Do (IoDone "/D.js")].

(** nothing under way *)
Definition quiet : World := mkWorld (fresh diamond) [] [].

(** caller 1 waits for /D.js *)
Definition waiting : World :=
  mkWorld (with_store (fresh diamond)
             (step (entry_A 10) (store (fresh diamond)) (Request "/D.js" 1)))
          [] [].

(** after the invalidate the file changes, caller 2 asks for /D.js and is
    answered *)
Definition overtaking : list Move :=
  [Do (FsChange edited); Do (Request "/D.js" 2); Do (IoDone "/D.js")].


(** the composite asset that build hands to the linker for entry /A.js *)
Definition bundle : CompositeAsset :=
  mkComposite (Some "/out.js") [Some diamond_A] None None.

(** the walk as SimpleMergeLinker starts it *)
Definition start (st : Store) : Walk := mkWalk st [] [].

(** the paths of the assets a walk delivered, in order *)
Definition walked_paths (r : option (Completion (list Obj) * Walk))
  : option (list string) :=
  match r with
  | Some (Called None expanded, _) =>
      Some (map (λ a, sa_path (fields a)) expanded)
  | _ => None
  end.

End Demo.

(** * Properties *)

Section Facts.
Context `{Host}.

Lemma getSourceAsset_fetch cfg p st :
  getSourceAsset cfg p st = fetch cfg (PATH_resolve (basedir cfg) p) st.
Proof. reflexivity. Qed.

(** C10: write(done) treats its only argument as the callback and behaves
    as write(undefined, done), the output path being the packager's
    configured path. *)
Theorem write_callback_only cfg (f : nat) p :
  write cfg (ArgFunction f) ArgUndefined p
    = write cfg ArgUndefined (ArgFunction f) p
  ∧ write cfg (ArgFunction f) ArgUndefined p
    = write cfg (arg_of_option (path cfg)) (ArgFunction f) p.
Proof.
  split; [reflexivity|].
  unfold write; simpl.
  destruct (path cfg) as [s|]; simpl; [|reflexivity].
  destruct (bool_decide (s = "")); reflexivity.
Qed.



(** *** The cache under interleaved requests *)

Lemma run_app cfg s1 s2 st : run cfg (s1 ++ s2) st = run cfg s2 (run cfg s1 st).
Proof. apply foldl_app. Qed.

Lemma run_snoc cfg ss s st : run cfg (ss ++ [s]) st = step cfg (run cfg ss st) s.
Proof. rewrite run_app. reflexivity. Qed.

(** an invariant of every cell that holds of the empty cache and that the
    three moves of the cache keep holds after every run *)
Lemma run_invariant cfg (I : Store → Prop) :
  (∀ st k, I st → I (gsa_begin cfg k st)) →
  (∀ st k cb, I st → I (gsa_attach k cb st)) →
  (∀ st k, I st → I (snd (gsa_complete cfg k st))) →
  (∀ st disk, I st → I (mkStore (_sourceAssets st) (next_id st) disk (trace st))) →
  ∀ steps st, I st → I (run cfg steps st).
Proof.
  intros Hb Ha Hc Hf steps.
  induction steps as [|s ss IH] using rev_ind; intros st Hst; [exact Hst|].
  rewrite run_snoc. destruct s as [p cb|k|disk]; simpl; auto.
Qed.

Lemma cache_ok_set st k c :
  cache_ok st → cell_ok k c → cache_ok (set_cell k c st).
Proof.
  intros Hst Hc k' c'. unfold set_cell; simpl.
  rewrite lookup_insert. case_decide; [intros [= <-]; by subst|apply Hst].
Qed.

Lemma cache_ok_log st evs : cache_ok st → cache_ok (log evs st).
Proof. intros Hst. exact Hst. Qed.

Lemma cache_ok_begin cfg st k : cache_ok st → cache_ok (gsa_begin cfg k st).
Proof.
  intros Hst. unfold gsa_begin.
  destruct (_sourceAssets st !! k); [done|].
  destruct (compiler_for _ _); [destruct (analyzer cfg)|];
    apply cache_ok_set; done.
Qed.

Lemma cache_ok_attach st k cb : cache_ok st → cache_ok (gsa_attach k cb st).
Proof.
  intros Hst. unfold gsa_attach.
  destruct (_sourceAssets st !! k) as [c|] eqn:Hk; [|done].
  destruct c; try done; apply cache_ok_set; try done;
    apply Hst in Hk; exact Hk.
Qed.

Lemma analyzer_fields a r disk err v :
  JavaScriptAnalyzer a r disk = Called err v →
  sa_path v = sa_path a ∧
  ∃ b, sa_body v = Some b ∧
       (err = None → scan_requires b = [] →
        sa_dependencies v = sa_dependencies a).
Proof.
  unfold JavaScriptAnalyzer.
  destruct (sa_body a) as [b|] eqn:Hb; [|done].
  destruct (scan_requires b) as [|i ids] eqn:Hs.
  - intros [= <- <-]. eauto.
  - destruct (resolve_all _ _ _); intros [= <- <-]; simpl;
      (split; [done|]); exists b; (split; [done|]); intros; congruence.
Qed.

Lemma cache_ok_complete cfg st k :
  analyzer cfg = Some JavaScriptAnalyzer →
  (∀ ext c, compiler_for (compilers cfg) ext = Some c → keeps_identity c) →
  cache_ok st → cache_ok (snd (gsa_complete cfg k st)).
Proof.
  intros Han Hcs Hst. unfold gsa_complete.
  destruct (_sourceAssets st !! k) as [[job ws|ws|r]|] eqn:Hk; try done.
  destruct (compiler_for _ _) as [c|] eqn:Hc; [|done].
  rewrite Han.
  pose proof (Hst _ _ Hk) as Hjob; simpl in Hjob.
  destruct (c _ _ _) as [[e|] compiled| |] eqn:Hrun; simpl;
    try (apply cache_ok_log || idtac); try (apply cache_ok_set; done).
  destruct (JavaScriptAnalyzer _ _ _) as [err analyzed| |] eqn:Hana; simpl;
    try (apply cache_ok_set; [by apply cache_ok_log|done]).
  apply cache_ok_log, cache_ok_set; [by apply cache_ok_log|].
  destruct err; [done|]. simpl.
  apply Hcs in Hc. destruct (Hc _ _ _ _ _ Hrun) as [Hp Hd].
  destruct (analyzer_fields _ _ _ _ _ Hana) as (Hp' & b & Hb & Hdeps).
  rewrite Hjob in Hp, Hd; simpl in *.
  split; [congruence|]. exists b; split; [done|].
  intros Hs. rewrite (Hdeps eq_refl Hs). done.
Qed.

(** C9: an asset that getSourceAsset yields without error carries the
    resolved path it was asked for, and its dependencies are a list in
    every case, the empty one when the body holds no require directive.
    This holds at any moment of a cache lifetime, for the analyzer of the
    module and compilers that leave path and dependencies alone. *)
Theorem source_asset_shape cfg p0 steps assetPath obj st' :
  analyzer cfg = Some JavaScriptAnalyzer →
  (∀ ext c, compiler_for (compilers cfg) ext = Some c → keeps_identity c) →
  getSourceAsset cfg assetPath (run cfg steps (store (invalidate p0)))
    = (Called None (Some obj), st') →
  sa_path (fields obj) = PATH_resolve (basedir cfg) assetPath ∧
  ∃ body, sa_body (fields obj) = Some body ∧
          (scan_requires body = [] → sa_dependencies (fields obj) = []).
Proof.
  intros Han Hcs Hget.
  set (st := run cfg steps (store (invalidate p0))) in *.
  assert (Hst : cache_ok st).
  { apply run_invariant; auto using cache_ok_begin, cache_ok_attach,
      cache_ok_complete.
    intros k c; simpl. by rewrite lookup_empty. }
  rewrite getSourceAsset_fetch in Hget. unfold fetch in Hget.
  set (k := PATH_resolve (basedir cfg) assetPath) in *.
  pose proof (cache_ok_complete cfg _ k Han Hcs (cache_ok_begin cfg st k Hst))
    as Hdone.
  destruct (gsa_complete cfg k (gsa_begin cfg k st)) as [esc st2].
  destruct esc; [done|]. simpl in Hdone.
  destruct (_sourceAssets st2 !! k) as [[| |[err v]]|] eqn:Hk; try done.
  injection Hget as -> -> ->.
  exact (Hdone _ _ Hk).
Qed.

(** *** At most one computation per path *)

Lemma count_app f l1 l2 : count f (l1 ++ l2) = count f l1 + count f l2.
Proof. unfold count. by rewrite List.filter_app, length_app. Qed.

Lemma count_other f k evs :
  (∀ e, about k e → f e = false) → Forall (about k) evs → count f evs = 0.
Proof.
  intros Hf Hall. unfold count.
  induction Hall as [|e evs He _ IH]; [done|]. simpl. by rewrite (Hf e He).
Qed.

Lemma is_compile_other key k e : key ≠ k → about k e → is_compile key e = false.
Proof.
  intros Hne. destruct e; simpl; try done.
  intros ->. by rewrite bool_decide_eq_false.
Qed.

Lemma is_analyze_other key k e : key ≠ k → about k e → is_analyze key e = false.
Proof.
  intros Hne. destruct e; simpl; try done.
  intros ->. by rewrite bool_decide_eq_false.
Qed.

Lemma deliver_other key k cb r evs :
  key ≠ k → Forall (about k) evs → EvDeliver key cb r ∉ evs.
Proof.
  intros Hne Hall Hin. rewrite Forall_forall in Hall.
  apply Hall in Hin. simpl in Hin. done.
Qed.

(** events about [k] leave the history of every other cell as it was *)
Lemma cell_history_other key k c evs new :
  key ≠ k → Forall (about k) new →
  cell_history key c evs → cell_history key c (evs ++ new).
Proof.
  intros Hne Hnew (Hc & Ha & Hcell).
  assert (Hc0 : count (is_compile key) new = 0)
    by (apply (count_other _ k); [intros; by apply (is_compile_other key k)|done]).
  assert (Ha0 : count (is_analyze key) new = 0)
    by (apply (count_other _ k); [intros; by apply (is_analyze_other key k)|done]).
  assert (Hd0 : ∀ cb r, EvDeliver key cb r ∉ new)
    by (intros; by apply (deliver_other key k)).
  unfold cell_history. rewrite !count_app, Hc0, Ha0, !Nat.add_0_r.
  split; [done|]. split; [done|].
  destruct c as [[job ws|ws|r]|].
  - destruct Hcell as [? Hd]. split; [done|].
    intros cb r Hin. apply elem_of_app in Hin as [Hin|Hin]; [by eapply Hd|by eapply Hd0].
  - intros cb r Hin. apply elem_of_app in Hin as [Hin|Hin]; [by eapply Hcell|by eapply Hd0].
  - intros cb r' Hin. apply elem_of_app in Hin as [Hin|Hin]; [by eapply Hcell|by eapply Hd0 in Hin].
  - destruct Hcell as (? & ? & Hd). do 2 (split; [done|]).
    intros cb r Hin. apply elem_of_app in Hin as [Hin|Hin]; [by eapply Hd|by eapply Hd0].
Qed.

(** a move that touches the cell of [k] only, and says so in the trace,
    keeps the history *)
Lemma history_move base st st' k new :
  trace st' = trace st ++ new → Forall (about k) new →
  (∀ key, key ≠ k → _sourceAssets st' !! key = _sourceAssets st !! key) →
  (∀ evs, cell_history k (_sourceAssets st !! k) evs →
          cell_history k (_sourceAssets st' !! k) (evs ++ new)) →
  history base st → history base st'.
Proof.
  intros Htr Hnew Hother Hk (evs & Hevs & Hall).
  exists (evs ++ new). split; [by rewrite Htr, Hevs, app_assoc|].
  intros key. destruct (decide (key = k)) as [->|Hne]; [by apply Hk|].
  rewrite (Hother _ Hne). by apply (cell_history_other key k).
Qed.

Lemma count_deliveries f k r ws :
  (∀ cb, f (EvDeliver k cb r) = false) →
  count f (map (λ cb, EvDeliver k cb r) ws) = 0.
Proof.
  intros Hf. unfold count. induction ws as [|cb ws IH]; [done|].
  simpl. by rewrite Hf.
Qed.

Lemma deliveries_about k r ws : Forall (about k) (map (λ cb, EvDeliver k cb r) ws).
Proof. apply Forall_forall. intros e [cb [-> _]]%list_elem_of_fmap. done. Qed.

Lemma deliveries_result k r ws cb r' :
  EvDeliver k cb r' ∈ map (λ cb, EvDeliver k cb r) ws → r' = r.
Proof. intros [cb' [[= _ ->] _]]%list_elem_of_fmap. done. Qed.

Ltac history_move_at k new :=
  eapply (history_move _ _ _ k new);
  [ simpl; by rewrite ?app_nil_r
  | by repeat constructor
  | intros ? ?; simpl; by rewrite lookup_insert_ne
  | simpl; rewrite lookup_insert_eq
  | done ].

Lemma history_begin cfg base st k :
  history base st → history base (gsa_begin cfg k st).
Proof.
  intros Hst. unfold gsa_begin.
  destruct (_sourceAssets st !! k) as [c|] eqn:Hk; [done|].
  destruct (compiler_for _ _) as [c|]; [destruct (analyzer cfg) as [a|]|].
  - history_move_at k [EvCompile k].
    intros evs. rewrite Hk.
    intros (_ & _ & Hc & Ha & Hd). unfold cell_history.
    rewrite !count_app, Hc, Ha. unfold count; simpl.
    rewrite bool_decide_eq_true_2 by done.
    simpl. repeat split; try lia.
    intros cb r [Hin|Hin]%elem_of_app; [by eapply Hd|].
    by apply list_elem_of_singleton in Hin.
  - history_move_at k (@nil Event).
    intros evs. rewrite Hk, app_nil_r.
    intros (? & ? & _ & _ & Hd). repeat split; try done.
    intros cb r' Hin. by apply Hd in Hin.
  - history_move_at k (@nil Event).
    intros evs. rewrite Hk, app_nil_r.
    intros (? & ? & _ & _ & Hd). repeat split; try done.
    intros cb r' Hin. by apply Hd in Hin.
Qed.

Lemma history_attach base st k cb :
  history base st → history base (gsa_attach k cb st).
Proof.
  intros Hst. unfold gsa_attach.
  destruct (_sourceAssets st !! k) as [[job ws|ws|r]|] eqn:Hk; [| | |done].
  - history_move_at k (@nil Event).
    intros evs. by rewrite Hk, app_nil_r.
  - history_move_at k (@nil Event).
    intros evs. by rewrite Hk, app_nil_r.
  - eapply (history_move _ _ _ k [EvDeliver k cb r]);
      [done | by repeat constructor | done | | done].
    intros evs. simpl. rewrite Hk. intros (Hc & Ha & Hd). unfold cell_history.
    rewrite !count_app. unfold count at 2 4; simpl. rewrite !Nat.add_0_r.
    repeat split; try done.
    intros cb' r' [Hin|Hin]%elem_of_app; [by eapply Hd|].
    apply list_elem_of_singleton in Hin. by injection Hin.
Qed.

(** the cell of [k] goes from running to settled, the analyzer having been
    called ([pre] is its event) or not, and the waiters are answered *)
Lemma history_settle base st job ws k r pre :
  _sourceAssets st !! k = Some (Running job ws) →
  pre = [] ∨ pre = [EvAnalyze k] →
  history base st →
  history base (settle k r ws (log pre st)).
Proof.
  intros Hk Hpre Hst.
  apply (history_move base st _ k (pre ++ map (λ cb, EvDeliver k cb r) ws)).
  - simpl. by rewrite app_assoc.
  - apply Forall_app. split; [|apply deliveries_about].
    destruct Hpre as [->| ->]; by repeat constructor.
  - intros key Hne. simpl. by rewrite lookup_insert_ne.
  - intros evs. rewrite Hk. simpl. rewrite lookup_insert_eq.
    intros (Hc & _ & Ha & Hd). unfold cell_history.
    rewrite !count_app, Ha.
    rewrite !count_deliveries by done.
    assert (count (is_compile k) pre = 0) as ->
      by (destruct Hpre as [->| ->]; done).
    assert (count (is_analyze k) pre ≤ 1)
      by (destruct Hpre as [->| ->]; unfold count; simpl; [lia|];
          destruct (bool_decide _); simpl; lia).
    repeat split; try lia.
    intros cb r' [Hin|[Hin|Hin]%elem_of_app]%elem_of_app.
    + by apply Hd in Hin.
    + destruct Hpre as [->| ->]; [by apply elem_of_nil in Hin|].
      by apply list_elem_of_singleton in Hin.
    + by eapply deliveries_result.
  - done.
Qed.

Lemma history_stuck base st job ws k pre :
  _sourceAssets st !! k = Some (Running job ws) →
  pre = [] ∨ pre = [EvAnalyze k] →
  history base st →
  history base (set_cell k (Stuck ws) (log pre st)).
Proof.
  intros Hk Hpre Hst.
  apply (history_move base st _ k pre).
  - done.
  - destruct Hpre as [->| ->]; by repeat constructor.
  - intros key Hne. simpl. by rewrite lookup_insert_ne.
  - intros evs. rewrite Hk. simpl. rewrite lookup_insert_eq.
    intros (Hc & _ & Ha & Hd). unfold cell_history.
    rewrite !count_app, Ha.
    assert (count (is_compile k) pre = 0) as ->
      by (destruct Hpre as [->| ->]; done).
    assert (count (is_analyze k) pre ≤ 1)
      by (destruct Hpre as [->| ->]; unfold count; simpl; [lia|];
          destruct (bool_decide _); simpl; lia).
    repeat split; try lia.
    intros cb r' [Hin|Hin]%elem_of_app; [by apply Hd in Hin|].
    destruct Hpre as [->| ->]; [by apply elem_of_nil in Hin|].
    by apply list_elem_of_singleton in Hin.
  - done.
Qed.

Lemma log_nil st : log [] st = st.
Proof. destruct st. unfold log; simpl. by rewrite app_nil_r. Qed.

Lemma history_complete cfg base st k :
  history base st → history base (snd (gsa_complete cfg k st)).
Proof.
  intros Hst. unfold gsa_complete.
  destruct (_sourceAssets st !! k) as [[job ws|ws|r]|] eqn:Hk; try done.
  destruct (compiler_for _ _) as [c|]; [|done].
  destruct (analyzer cfg) as [a|]; [|done].
  destruct (c _ _ _) as [[e|] compiled| |]; simpl.
  - rewrite <- (log_nil st) at 1. eapply history_settle; eauto.
  - destruct (a _ _ _) as [err analyzed| |]; simpl.
    + eapply history_settle; eauto.
    + eapply history_stuck; eauto.
    + eapply history_stuck; eauto.
  - rewrite <- (log_nil st) at 1. eapply history_stuck; eauto.
  - rewrite <- (log_nil st) at 1. eapply history_stuck; eauto.
Qed.

Lemma history_run cfg base steps st :
  history base st → history base (run cfg steps st).
Proof.
  apply (run_invariant cfg (history base));
    auto using history_begin, history_attach, history_complete.
Qed.

Lemma history_reset p : history (trace (store p)) (store (invalidate p)).
Proof.
  exists []. split; [by rewrite app_nil_r|].
  intros key. simpl. rewrite lookup_empty.
  repeat split; unfold count; simpl; try lia.
  intros cb r Hin; by apply elem_of_nil in Hin.
Qed.

Lemma fetch_settled cfg k st err v :
  _sourceAssets st !! k = Some (Settled (err, v)) →
  fetch cfg k st = (Called err v, st).
Proof.
  intros Hk. unfold fetch.
  assert (gsa_begin cfg k st = st) as ->
    by (unfold gsa_begin; by rewrite Hk).
  assert (gsa_complete cfg k st = (None, st)) as ->
    by (unfold gsa_complete; by rewrite Hk).
  by rewrite Hk.
Qed.

(** the first request for a path starts its compiler *)
Lemma first_request_compiles cfg st assetPath cb :
  _sourceAssets st !! PATH_resolve (basedir cfg) assetPath = None →
  is_Some (compiler_for (compilers cfg)
             (PATH_extname (PATH_resolve (basedir cfg) assetPath))) →
  is_Some (analyzer cfg) →
  since st (step cfg st (Request assetPath cb))
    = [EvCompile (PATH_resolve (basedir cfg) assetPath)].
Proof.
  intros Hk [c Hc] [a Ha]. unfold since, step, gsa_begin, gsa_attach.
  rewrite Hk, Hc, Ha. simpl. rewrite lookup_insert_eq. simpl.
  by rewrite drop_app_length.
Qed.

(** when the pending computation of a path calls back, every caller that
    waited is given its result *)
Lemma completion_answers cfg st key job ws err v cb :
  _sourceAssets st !! key = Some (Running job ws) →
  finish cfg (fs st) key job = Called err v →
  cb ∈ ws →
  EvDeliver key cb (err, v) ∈ since st (step cfg st (IoDone key)).
Proof.
  intros Hk Hfin Hcb. unfold since, step, gsa_complete.
  unfold finish in Hfin. rewrite Hk.
  destruct (compiler_for _ _) as [c|]; [|done].
  destruct (analyzer cfg) as [a|]; [|done].
  destruct (c _ _ _) as [[e|] compiled| |]; try done.
  - injection Hfin as <- <-. simpl. rewrite drop_app_length.
    by apply (list_elem_of_fmap_2 (λ cb, EvDeliver key cb _)).
  - destruct (a _ _ _) as [err' analyzed| |]; try done.
    injection Hfin as <- <-. simpl.
    rewrite <- app_assoc, drop_app_length. right.
    by apply (list_elem_of_fmap_2 (λ cb, EvDeliver key cb _)).
Qed.

(** *** Callers and work within a lifetime *)

Lemma play_snoc cfg moves m w :
  play cfg (moves ++ [m]) w = move cfg (play cfg moves w) m.
Proof. unfold play. by rewrite foldl_app. Qed.

Lemma served_more key cb c evs new :
  served key cb c evs → served key cb c (evs ++ new).
Proof.
  destruct c as [[job ws|ws|r]|]; simpl; try done.
  intros Hin. apply elem_of_app. by left.
Qed.

Lemma cell_work_other cfg key k c evs new :
  key ≠ k → Forall (about k) new →
  cell_work cfg key c evs → cell_work cfg key c (evs ++ new).
Proof.
  intros Hne Hnew.
  assert (Hc0 : count (is_compile key) new = 0)
    by (apply (count_other _ k); [intros; by apply (is_compile_other key k)|done]).
  assert (Ha0 : count (is_analyze key) new = 0)
    by (apply (count_other _ k); [intros; by apply (is_analyze_other key k)|done]).
  destruct c as [[job ws|ws|[e [o|]]]|]; simpl;
    rewrite ?count_app, ?Hc0, ?Ha0, ?Nat.add_0_r; done.
Qed.

(** a move that touches the cell of [k] only keeps the tally, if it keeps
    it for [k] *)
Lemma tally_move cfg base asked st st' k new :
  trace st' = trace st ++ new → Forall (about k) new →
  (∀ key, key ≠ k → _sourceAssets st' !! key = _sourceAssets st !! key) →
  (∀ evs, cell_history k (_sourceAssets st !! k) evs →
          cell_work cfg k (_sourceAssets st !! k) evs →
          cell_work cfg k (_sourceAssets st' !! k) (evs ++ new)) →
  (∀ evs cb, served k cb (_sourceAssets st !! k) evs →
             served k cb (_sourceAssets st' !! k) (evs ++ new)) →
  history base st → tally cfg base asked st → tally cfg base asked st'.
Proof.
  intros Htr Hnew Hother Hwork Hserved (evs & Hevs & Hall)
         (evs' & Hevs' & Htally).
  assert (evs' = evs) as ->
    by (rewrite Hevs in Hevs'; by apply app_inv_head in Hevs').
  exists (evs ++ new). split; [by rewrite Htr, Hevs, app_assoc|].
  intros key. destruct (decide (key = k)) as [->|Hne].
  - destruct (Htally k) as [Hw Hs]. split; [by apply Hwork|].
    intros cb Hcb. by apply Hserved, Hs.
  - rewrite (Hother _ Hne). destruct (Htally key) as [Hw Hs]. split.
    + by apply (cell_work_other cfg key k).
    + intros cb Hcb. apply served_more. by apply Hs.
Qed.

Ltac tally_move_at k new :=
  eapply (tally_move _ _ _ _ _ k new);
  [ simpl; by rewrite ?app_nil_r
  | by repeat constructor
  | intros ? ?; simpl; by rewrite lookup_insert_ne
  | simpl; rewrite lookup_insert_eq
  | simpl; rewrite lookup_insert_eq
  | done
  | done ].

Lemma count_compile_one k : count (is_compile k) [EvCompile k] = 1.
Proof. unfold count; simpl. by rewrite bool_decide_eq_true_2. Qed.

Lemma count_analyze_one k : count (is_analyze k) [EvAnalyze k] = 1.
Proof. unfold count; simpl. by rewrite bool_decide_eq_true_2. Qed.

Lemma tally_begin cfg base asked st k :
  history base st → tally cfg base asked st →
  tally cfg base asked (gsa_begin cfg k st).
Proof.
  intros Hhist Hst. unfold gsa_begin.
  destruct (_sourceAssets st !! k) as [c|] eqn:Hk; [done|].
  destruct (compiler_for _ _) as [c|] eqn:Hc;
    [destruct (analyzer cfg) as [a|] eqn:Ha|].
  - tally_move_at k [EvCompile k].
    + intros evs. rewrite Hk. intros (_ & _ & Hzero & _) _. simpl.
      by rewrite count_app, Hzero, count_compile_one.
    + intros evs cb. by rewrite Hk.
  - tally_move_at k (@nil Event).
    + intros evs _ _ [_ [a Ha']]. congruence.
    + intros evs cb. by rewrite Hk.
  - tally_move_at k (@nil Event).
    + intros evs _ _ [[c Hc'] _]. congruence.
    + intros evs cb. by rewrite Hk.
Qed.

Lemma begin_cell cfg k st : is_Some (_sourceAssets (gsa_begin cfg k st) !! k).
Proof.
  unfold gsa_begin. destruct (_sourceAssets st !! k) as [c|] eqn:Hk; [by eexists|].
  destruct (compiler_for _ _); [destruct (analyzer cfg)|]; simpl;
    rewrite lookup_insert_eq; by eexists.
Qed.

Lemma tally_more cfg base asked asked' st :
  (∀ x, x ∈ asked' → x ∈ asked) →
  tally cfg base asked st → tally cfg base asked' st.
Proof.
  intros Hsub (evs & Hevs & Hall). exists evs. split; [done|].
  intros key. destruct (Hall key) as [Hw Hs]. split; [done|].
  intros cb Hcb. by apply Hs, Hsub.
Qed.

Lemma tally_cons cfg base asked st k cb :
  tally cfg base asked st →
  (∀ evs, trace st = base ++ evs → served k cb (_sourceAssets st !! k) evs) →
  tally cfg base ((k, cb) :: asked) st.
Proof.
  intros (evs & Hevs & Hall) Hnew. exists evs. split; [done|].
  intros key. destruct (Hall key) as [Hw Hs]. split; [done|].
  intros cb' [[= -> ->]|Hin]%elem_of_cons; [by apply Hnew|by apply Hs].
Qed.

(** line 187: the caller waits in the cell or is answered from it *)
Lemma tally_attach cfg base asked st k cb :
  is_Some (_sourceAssets st !! k) →
  history base st → tally cfg base asked st →
  tally cfg base ((k, cb) :: asked) (gsa_attach k cb st).
Proof.
  intros [c Hk] Hhist Hst. apply tally_cons.
  - unfold gsa_attach. rewrite Hk.
    destruct c as [job ws|ws|r].
    + tally_move_at k (@nil Event).
      * intros evs. by rewrite Hk, app_nil_r.
      * intros evs cb'. rewrite Hk, app_nil_r. simpl.
        intros Hin. apply elem_of_app. by left.
    + tally_move_at k (@nil Event).
      * intros evs. by rewrite Hk, app_nil_r.
      * intros evs cb'. rewrite Hk, app_nil_r. simpl.
        intros Hin. apply elem_of_app. by left.
    + eapply (tally_move _ _ _ _ _ k [EvDeliver k cb r]);
        [done | by repeat constructor | done | | | done | done].
      * intros evs _. simpl. rewrite Hk.
        assert (Hc0 : count (is_compile k) [EvDeliver k cb r] = 0) by done.
        assert (Ha0 : count (is_analyze k) [EvDeliver k cb r] = 0) by done.
        destruct r as [e [o|]]; simpl;
          by rewrite ?count_app, ?Hc0, ?Ha0, ?Nat.add_0_r.
      * intros evs cb'. simpl. rewrite Hk. apply served_more.
  - intros evs Hevs. unfold gsa_attach in *. rewrite Hk in *.
    destruct c as [job ws|ws|r]; simpl in *.
    + rewrite lookup_insert_eq. simpl. apply elem_of_app. right. by left.
    + rewrite lookup_insert_eq. simpl. apply elem_of_app. right. by left.
    + rewrite Hk. simpl. destruct Hhist as (evs0 & Hevs0 & _).
      rewrite Hevs0, <- app_assoc in Hevs. apply app_inv_head in Hevs.
      subst evs. apply elem_of_app. right. by left.
Qed.

Lemma tally_settle cfg base asked st job ws k r pre :
  _sourceAssets st !! k = Some (Running job ws) →
  (pre = [] ∧ snd r = None) ∨ pre = [EvAnalyze k] →
  history base st → tally cfg base asked st →
  tally cfg base asked (settle k r ws (log pre st)).
Proof.
  intros Hk Hpre Hhist Hst.
  apply (tally_move cfg base asked st _ k
           (pre ++ map (λ cb, EvDeliver k cb r) ws)); try done.
  - simpl. by rewrite app_assoc.
  - apply Forall_app. split; [|apply deliveries_about].
    destruct Hpre as [[-> _]| ->]; by repeat constructor.
  - intros key Hne. simpl. by rewrite lookup_insert_ne.
  - intros evs. rewrite Hk. simpl. rewrite lookup_insert_eq.
    intros (_ & _ & Hzero & _) Hone.
    assert (Hc : count (is_compile k)
                   (evs ++ pre ++ map (λ cb, EvDeliver k cb r) ws) = 1).
    { rewrite !count_app, count_deliveries, Hone by done.
      destruct Hpre as [[-> _]| ->]; done. }
    destruct r as [e [o|]]; simpl; [|done].
    split; [done|].
    destruct Hpre as [[_ Hr]| ->]; [done|].
    by rewrite !count_app, count_deliveries, Hzero, count_analyze_one.
  - intros evs cb. rewrite Hk. simpl. rewrite lookup_insert_eq. simpl.
    intros Hcb. apply elem_of_app. right. apply elem_of_app. right.
    by apply (list_elem_of_fmap_2 (λ cb, EvDeliver k cb r)).
Qed.

Lemma tally_stuck cfg base asked st job ws k pre :
  _sourceAssets st !! k = Some (Running job ws) →
  pre = [] ∨ pre = [EvAnalyze k] →
  history base st → tally cfg base asked st →
  tally cfg base asked (set_cell k (Stuck ws) (log pre st)).
Proof.
  intros Hk Hpre Hhist Hst.
  apply (tally_move cfg base asked st _ k pre); try done.
  - destruct Hpre as [->| ->]; by repeat constructor.
  - intros key Hne. simpl. by rewrite lookup_insert_ne.
  - intros evs. rewrite Hk. simpl. rewrite lookup_insert_eq.
    intros _ Hone. simpl. rewrite count_app, Hone.
    destruct Hpre as [->| ->]; done.
  - intros evs cb. rewrite Hk. simpl. by rewrite lookup_insert_eq.
Qed.

Lemma tally_complete cfg base asked st k :
  history base st → tally cfg base asked st →
  tally cfg base asked (snd (gsa_complete cfg k st)).
Proof.
  intros Hhist Hst. unfold gsa_complete.
  destruct (_sourceAssets st !! k) as [[job ws|ws|r]|] eqn:Hk; try done.
  destruct (compiler_for _ _) as [c|]; [|done].
  destruct (analyzer cfg) as [a|]; [|done].
  destruct (c _ _ _) as [[e|] compiled| |]; simpl.
  - rewrite <- (log_nil st) at 1. eapply tally_settle; eauto.
  - destruct (a _ _ _) as [err analyzed| |]; simpl.
    + eapply tally_settle; eauto.
    + eapply tally_stuck; eauto.
    + eapply tally_stuck; eauto.
  - rewrite <- (log_nil st) at 1. eapply tally_stuck; eauto.
  - rewrite <- (log_nil st) at 1. eapply tally_stuck; eauto.
Qed.

Lemma asked_of_snoc cfg moves m :
  asked_of cfg (moves ++ [m]) = asked_of cfg moves ++ asked_of cfg [m].
Proof. unfold asked_of. by rewrite omap_app. Qed.

Lemma asked_of_request cfg moves assetPath cb :
  Do (Request assetPath cb) ∈ moves →
  (PATH_resolve (basedir cfg) assetPath, cb) ∈ asked_of cfg moves.
Proof.
  intros Hin. unfold asked_of. apply list_elem_of_omap.
  by exists (Do (Request assetPath cb)).
Qed.

(** within a lifetime the cells account for all work and all callers,
    whatever the detached computations do meanwhile *)
Lemma lifetime_accounts cfg base w moves :
  history base (store (now w)) → tally cfg base [] (store (now w)) →
  history base (store (now (play cfg moves w)))
  ∧ tally cfg base (asked_of cfg moves) (store (now (play cfg moves w))).
Proof.
  intros Hh0 Ht0.
  induction moves as [|m moves IH] using rev_ind; [done|].
  destruct IH as [Hh Ht]. rewrite play_snoc, asked_of_snoc.
  set (w1 := play cfg moves w) in *.
  destruct m as [[assetPath cb|k|disk]|i]; simpl.
  - split; [by apply history_attach, history_begin|].
    eapply tally_more;
      [|apply (tally_attach cfg base (asked_of cfg moves));
        [apply begin_cell|by apply history_begin|by apply tally_begin]].
    intros x [Hx|Hx%list_elem_of_singleton]%elem_of_app;
      [by right|subst; by left].
  - rewrite app_nil_r. split; [by apply history_complete|].
    by apply tally_complete.
  - rewrite app_nil_r. done.
  - rewrite app_nil_r. by destruct (detached w1 !! i).
Qed.

Lemma renew_history w : history (trace (store (now w))) (store (now (renew w))).
Proof. apply history_reset. Qed.

Lemma renew_tally cfg w :
  tally cfg (trace (store (now w))) [] (store (now (renew w))).
Proof.
  exists []. split; [by rewrite app_nil_r|].
  intros key. simpl. rewrite lookup_empty. split; [done|].
  by intros cb Hcb%elem_of_nil.
Qed.

(** the computations under way at an invalidate go on detached *)
Lemma renew_detaches w key job ws :
  _sourceAssets (store (now w)) !! key = Some (Running job ws) →
  mkJob key job ws ∈ detached (renew w).
Proof.
  intros Hk. simpl. apply elem_of_app. right.
  apply list_elem_of_omap. exists (key, Running job ws).
  split; [|done]. by apply elem_of_map_to_list.
Qed.

(** a detached computation that calls back answers its callers and leaves
    the packager alone *)
Lemma late_answers cfg w i j err v cb :
  detached w !! i = Some j →
  finish cfg (fs (store (now w))) (j_key j) (j_asset j) = Called err v →
  cb ∈ j_waiters j →
  EvDeliver (j_key j) cb (err, v)
    ∈ drop (length (stale w)) (stale (move cfg w (Late i)))
  ∧ now (move cfg w (Late i)) = now w.
Proof.
  intros Hi Hfin Hcb. simpl. rewrite Hi. simpl.
  split; [|done]. rewrite drop_app_length.
  pose proof (completion_answers cfg (alone j (store (now w))) (j_key j)
                (j_asset j) (j_waiters j) err v cb) as Hans.
  unfold since in Hans. simpl in Hans.
  apply Hans; [by rewrite lookup_singleton_eq|done|done].
Qed.

Lemma completion_settles cfg st key job ws err v :
  _sourceAssets st !! key = Some (Running job ws) →
  finish cfg (fs st) key job = Called err v →
  _sourceAssets (step cfg st (IoDone key)) !! key = Some (Settled (err, v)).
Proof.
  intros Hk Hfin. unfold step, gsa_complete.
  unfold finish in Hfin. rewrite Hk.
  destruct (compiler_for _ _) as [c|]; [|done].
  destruct (analyzer cfg) as [a|]; [|done].
  destruct (c _ _ _) as [[e|] compiled| |]; try done.
  - injection Hfin as <- <-. simpl. by rewrite lookup_insert_eq.
  - destruct (a _ _ _) as [err' analyzed| |]; try done.
    injection Hfin as <- <-. simpl. by rewrite lookup_insert_eq.
Qed.

Lemma play_keeps_detached cfg moves w :
  (∀ i, Late i ∉ moves) → detached (play cfg moves w) = detached w.
Proof.
  induction moves as [|m moves IH] using rev_ind; intros Hno; [done|].
  rewrite play_snoc. destruct m as [s|i]; simpl.
  - apply IH. intros i Hin. apply (Hno i), elem_of_app. by left.
  - exfalso. apply (Hno i), elem_of_app. right. by left.
Qed.

(** C1: a lifetime of the cache begins with an invalidate and goes on,
    under any interleaving of requests, completions of pending reads,
    changes of the files and completions of the computations that were
    under way at the invalidate, until the next one.  Within it, for
    every resolved path:
    - compiler and analyzer are each invoked at most once;
    - every caller that has requested the path is waiting in its cell or
      has been answered with the result of the cell, and if the plugins
      are configured the compiler has been invoked exactly once;
    - all answers given for the path are the same result;
    - once the cell has settled -- on an asset or on an error -- all
      answers given are that result, an asset has been analyzed exactly
      once, and a request is answered with the result and leaves the
      cache as it is;
    - the first request starts the compiler;
    - when the pending computation calls back, every caller that has
      requested the path gets the result, and the cell settles on it;
    - a computation under way at the invalidate goes on detached from the
      cache, stays so until its read finishes, and then answers its
      callers with its own result without touching the new cache. *)
Theorem source_asset_once cfg w0 moves key :
  count (is_compile key) (events_after cfg w0 moves) ≤ 1
  ∧ count (is_analyze key) (events_after cfg w0 moves) ≤ 1
  ∧ (∀ assetPath cb,
       Do (Request assetPath cb) ∈ moves →
       PATH_resolve (basedir cfg) assetPath = key →
       served key cb (_sourceAssets (cache_after cfg w0 moves) !! key)
              (events_after cfg w0 moves)
       ∧ (has_plugins cfg key →
          count (is_compile key) (events_after cfg w0 moves) = 1))
  ∧ (∀ cb1 r1 cb2 r2,
       EvDeliver key cb1 r1 ∈ events_after cfg w0 moves →
       EvDeliver key cb2 r2 ∈ events_after cfg w0 moves →
       r1 = r2)
  ∧ (∀ err asset,
       _sourceAssets (cache_after cfg w0 moves) !! key
         = Some (Settled (err, asset)) →
       (∀ cb r, EvDeliver key cb r ∈ events_after cfg w0 moves →
                r = (err, asset))
       ∧ (is_Some asset →
          count (is_analyze key) (events_after cfg w0 moves) = 1)
       ∧ ∀ assetPath,
           PATH_resolve (basedir cfg) assetPath = key →
           getSourceAsset cfg assetPath (cache_after cfg w0 moves)
             = (Called err asset, cache_after cfg w0 moves))
  ∧ (∀ assetPath cb,
       PATH_resolve (basedir cfg) assetPath = key →
       _sourceAssets (cache_after cfg w0 moves) !! key = None →
       has_plugins cfg key →
       since (cache_after cfg w0 moves)
             (cache_after cfg w0 (moves ++ [Do (Request assetPath cb)]))
         = [EvCompile key])
  ∧ (∀ assetPath cb job ws err asset,
       Do (Request assetPath cb) ∈ moves →
       PATH_resolve (basedir cfg) assetPath = key →
       _sourceAssets (cache_after cfg w0 moves) !! key
         = Some (Running job ws) →
       finish cfg (fs (cache_after cfg w0 moves)) key job
         = Called err asset →
       EvDeliver key cb (err, asset)
         ∈ since (cache_after cfg w0 moves)
                 (cache_after cfg w0 (moves ++ [Do (IoDone key)]))
       ∧ _sourceAssets (cache_after cfg w0 (moves ++ [Do (IoDone key)])) !! key
         = Some (Settled (err, asset)))
  ∧ (∀ job ws,
       _sourceAssets (store (now w0)) !! key = Some (Running job ws) →
       mkJob key job ws ∈ detached (renew w0))
  ∧ ((∀ i, Late i ∉ moves) →
     detached (play cfg moves (renew w0)) = detached (renew w0))
  ∧ (∀ i j err asset cb,
       detached (play cfg moves (renew w0)) !! i = Some j →
       finish cfg (fs (cache_after cfg w0 moves)) (j_key j) (j_asset j)
         = Called err asset →
       cb ∈ j_waiters j →
       EvDeliver (j_key j) cb (err, asset)
         ∈ drop (length (stale (play cfg moves (renew w0))))
                (stale (play cfg (moves ++ [Late i]) (renew w0)))
       ∧ cache_after cfg w0 (moves ++ [Late i]) = cache_after cfg w0 moves).
Proof.
  unfold events_after, cache_after.
  pose proof (lifetime_accounts cfg _ (renew w0) moves
                (renew_history w0) (renew_tally cfg w0)) as [Hhist Htally].
  assert (Hsnoc : ∀ m, play cfg (moves ++ [m]) (renew w0)
                       = move cfg (play cfg moves (renew w0)) m)
    by (intros; apply play_snoc).
  pose proof (play_keeps_detached cfg moves (renew w0)) as Hkeep.
  pose proof (asked_of_request cfg moves) as Hasked.
  set (st0 := store (now (renew w0))).
  set (w := play cfg moves (renew w0)) in *. clearbody w.
  set (st := store (now w)) in *.
  destruct Hhist as (evs & Htr & Hall).
  destruct Htally as (evs' & Htr' & Htal).
  assert (evs' = evs) as ->
    by (rewrite Htr in Htr'; by apply app_inv_head in Htr').
  assert (Hsince : since st0 st = evs).
  { unfold since. rewrite Htr. simpl. by rewrite drop_app_length. }
  rewrite Hsince. destruct (Hall key) as (Hc & Ha & Hcell).
  destruct (Htal key) as [Hwork Hserved].
  split; [done|]. split; [done|]. split; [|split; [|split]].
  - intros assetPath cb Hin Hkey.
    pose proof (Hserved cb) as Hs. rewrite <- Hkey in Hs at 1.
    specialize (Hs (Hasked _ _ Hin)). split; [done|].
    intros Hplug. revert Hs Hwork.
    destruct (_sourceAssets st !! key) as [[job ws|ws|[e [o|]]]|];
      simpl; try done; [by intros _ [? ?]|by intros _ Hw; apply Hw].
  - intros cb1 r1 cb2 r2 H1 H2. revert Hcell.
    destruct (_sourceAssets st !! key) as [[job ws|ws|r]|]; intros Hcell.
    + destruct Hcell as [_ Hd]. by apply Hd in H1.
    + by apply Hcell in H1.
    + apply Hcell in H1, H2. congruence.
    + destruct Hcell as (_ & _ & Hd). by apply Hd in H1.
  - intros err asset Hk. rewrite Hk in Hcell, Hwork. split; [done|].
    split.
    + intros [o ->]. simpl in Hwork. by destruct Hwork.
    + intros assetPath <-. rewrite getSourceAsset_fetch.
      by apply fetch_settled.
  - split; [|split; [|split; [|split]]].
    + intros assetPath cb <- Hk [Hcomp Hana]. rewrite Hsnoc. simpl.
      by apply first_request_compiles.
    + intros assetPath cb job ws err asset Hin Hkey Hk Hfin.
      pose proof (Hserved cb) as Hs. rewrite <- Hkey in Hs at 1.
      specialize (Hs (Hasked _ _ Hin)). rewrite Hk in Hs. simpl in Hs.
      rewrite Hsnoc. simpl. split.
      * by eapply completion_answers.
      * by eapply completion_settles.
    + intros job ws. apply renew_detaches.
    + done.
    + intros i j err asset cb Hi Hfin Hcb. rewrite Hsnoc.
      destruct (late_answers cfg w i j err asset cb Hi Hfin Hcb)
        as [Hdel Hnow].
      split; [done|]. by rewrite Hnow.
Qed.

(** *** The build cell *)

Lemma build_body_stages cfg q v q' :
  build_body cfg q = Some (Called None v, q') →
  stages q' = stages q ++ StLink :: (if minify cfg then [StMinify] else []).
Proof.
  unfold build_body. intros Hb.
  repeat (case_match; simplify_eq/=; try done);
    by rewrite <- ?app_assoc.
Qed.

(** Of two calls of build with no invalidate between them, the second is
    answered from the build cell with what the first delivered, and leaves
    the packager untouched: nothing is resolved, compiled, linked or
    minified again.  When the first call delivered a composite asset, the
    linker ran exactly once, and the minifier exactly once if minify is set
    and not at all otherwise. *)
Lemma build_memoized cfg p err v p1 :
  _build p = None →
  build cfg p = Some (Called err v, p1) →
  build cfg p1 = Some (Called err v, p1)
  ∧ (err = None →
     stages p1 = stages p ++ StLink :: (if minify cfg then [StMinify] else [])).
Proof.
  intros Hfresh Hb. unfold build in Hb. rewrite Hfresh in Hb.
  destruct (build_body cfg _) as [[[e a| |] q]|] eqn:Hbody; simplify_eq/=.
  split; [reflexivity|].
  intros ->. by apply build_body_stages in Hbody.
Qed.

Lemma JavaScriptCompiler_keeps_identity : keeps_identity JavaScriptCompiler.
Proof.
  intros a r disk err v. unfold JavaScriptCompiler.
  destruct (FS_readFile _ _); intros [= <- <-]; done.
Qed.

(** what build delivers does not depend on the postprocessors *)
Lemma build_ignores_postprocessors b cs a l m mf pps pps' mn pa p :
  build (mkConfig b cs a l m mf pps mn pa) p
  = build (mkConfig b cs a l m mf pps' mn pa) p.
Proof. reflexivity. Qed.

(** *** Requests and the store *)

Lemma finish_strip cfg disk key i j f :
  strip (finish cfg disk key (mkObj i f)) = strip (finish cfg disk key (mkObj j f)).
Proof.
  unfold finish. simpl.
  repeat (case_match; simplify_eq/=; try done).
Qed.

Lemma answer_strip cfg disk key c i j :
  strip (answer cfg disk key c i) = strip (answer cfg disk key c j).
Proof.
  unfold answer. repeat (case_match; simplify_eq/=; try done).
  apply finish_strip.
Qed.

Lemma gsa_begin_cases cfg k st :
  (∃ c, _sourceAssets st !! k = Some c ∧ gsa_begin cfg k st = st)
  ∨ (_sourceAssets st !! k = None ∧
     ∃ r, gsa_begin cfg k st = set_cell k (Settled (Some r, None)) st ∧
          answer cfg (fs st) k None (next_id st) = Called (Some r) None)
  ∨ (_sourceAssets st !! k = None ∧
     gsa_begin cfg k st
       = mkStore (<[k := Running (mkObj (next_id st) (mkSourceAsset k None [])) []]>
                    (_sourceAssets st))
                 (S (next_id st)) (fs st) (trace st ++ [EvCompile k]) ∧
     answer cfg (fs st) k None (next_id st)
       = finish cfg (fs st) k (mkObj (next_id st) (mkSourceAsset k None []))).
Proof.
  unfold gsa_begin, answer.
  destruct (_sourceAssets st !! k) as [c|]; [left; eauto|right].
  destruct (compiler_for _ _); [destruct (analyzer cfg)|]; eauto.
Qed.

Lemma gsa_complete_spec cfg k st esc st' :
  gsa_complete cfg k st = (esc, st') →
  fs st' = fs st ∧ next_id st' = next_id st ∧
  (∀ k', k' ≠ k → _sourceAssets st' !! k' = _sourceAssets st !! k') ∧
  match _sourceAssets st !! k with
  | Some (Running job ws) =>
      match finish cfg (fs st) k job with
      | Called err v =>
          esc = None ∧ _sourceAssets st' !! k = Some (Settled (err, v))
      | Thrown e => esc = Some e ∧ _sourceAssets st' !! k = Some (Stuck ws)
      | Parked =>
          esc = None ∧
          (_sourceAssets st' !! k = Some (Stuck ws) ∨
           _sourceAssets st' !! k = Some (Running job ws))
      end
  | _ => esc = None ∧ st' = st
  end.
Proof.
  unfold gsa_complete, finish.
  destruct (_sourceAssets st !! k) as [[job ws|ws|r]|] eqn:Hk;
    try (intros [= <- <-]; done).
  destruct (compiler_for _ _) as [c|];
    [|intros [= <- <-]; rewrite Hk; repeat split; auto].
  destruct (analyzer cfg) as [a|];
    [|intros [= <- <-]; rewrite Hk; repeat split; auto].
  destruct (c _ _ _) as [[e|] compiled| |].
  - intros [= <- <-]; simpl. rewrite lookup_insert_eq.
    repeat split; try done. intros; by rewrite lookup_insert_ne.
  - destruct (a _ _ _) as [err analyzed| |];
      intros [= <- <-]; simpl; rewrite lookup_insert_eq;
      repeat split; auto; intros; by rewrite lookup_insert_ne.
  - intros [= <- <-]; simpl. rewrite lookup_insert_eq.
    repeat split; try done. intros; by rewrite lookup_insert_ne.
  - intros [= <- <-]; simpl. rewrite lookup_insert_eq.
    repeat split; auto. intros; by rewrite lookup_insert_ne.
Qed.

Lemma finish_oid cfg disk k job err o :
  finish cfg disk k job = Called err (Some o) → oid o = oid job.
Proof.
  unfold finish. intros Hf. repeat (case_match; simplify_eq/=; try done).
Qed.

Lemma fetch_spec cfg k st c st' :
  fetch cfg k st = (c, st') →
  c = answer cfg (fs st) k (_sourceAssets st !! k) (next_id st) ∧
  fs st' = fs st ∧ next_id st ≤ next_id st' ∧
  (∀ k', k' ≠ k → _sourceAssets st' !! k' = _sourceAssets st !! k') ∧
  (∀ err v, c = Called err v →
            _sourceAssets st' !! k = Some (Settled (err, v))) ∧
  (∀ c' o', _sourceAssets st' !! k = Some c' → cell_obj c' = Some o' →
     (∃ c0 o0, _sourceAssets st !! k = Some c0 ∧ cell_obj c0 = Some o0 ∧
               oid o0 = oid o')
     ∨ (next_id st ≤ oid o' < next_id st')).
Proof.
  unfold fetch.
  destruct (gsa_complete cfg k (gsa_begin cfg k st)) as [esc st2] eqn:Hc.
  apply gsa_complete_spec in Hc as (Hfs & Hid & Hother & Hcell).
  destruct (gsa_begin_cases cfg k st)
    as [(c0 & Hk & Hb)|[(Hk & r & Hb & Hans)|(Hk & Hb & Hans)]];
    rewrite Hb in *; clear Hb.
  - (* the cell existed *)
    rewrite Hk in *. unfold answer.
    destruct c0 as [job ws|ws|[err v]].
    + destruct (finish cfg (fs st) k job) as [err v| |] eqn:Hfin.
      * destruct Hcell as [-> Hk']. rewrite Hk'. intros [= <- <-].
        repeat split; auto; try lia.
        -- intros ? ? [= <- <-]. done.
        -- intros c' o'. rewrite Hk'. intros [= <-]. simpl. intros ->.
           left. exists (Running job ws), job. repeat split; try done.
           symmetry. by eapply finish_oid.
      * destruct Hcell as [-> Hk']. intros [= <- <-].
        repeat split; auto; try lia; try done.
        intros c' o'. rewrite Hk'. by intros [= <-].
      * destruct Hcell as [-> [Hk'|Hk']]; rewrite Hk'; intros [= <- <-];
          repeat split; auto; try lia; try done.
        -- intros c' o'. rewrite Hk'. by intros [= <-].
        -- intros c' o'. rewrite Hk'. intros [= <-] [= <-]. left. eauto.
    + destruct Hcell as [-> ->]. rewrite Hk. intros [= <- <-].
      repeat split; auto; try done.
      intros c' o'. rewrite Hk. by intros [= <-].
    + destruct Hcell as [-> ->]. rewrite Hk. intros [= <- <-].
      repeat split; auto; try done.
      * intros ? ? [= <- <-]. done.
      * intros c' o'. rewrite Hk. intros [= <-] Ho. left. eauto.
  - (* no cell, and no compiler or no analyzer *)
    simpl in Hcell, Hother, Hfs, Hid.
    rewrite lookup_insert_eq in Hcell. destruct Hcell as [-> ->].
    simpl. rewrite lookup_insert_eq. intros [= <- <-].
    rewrite Hk, Hans. repeat split; auto.
    + intros; simpl; by rewrite lookup_insert_ne.
    + intros ? ? [= <- <-]. simpl. by rewrite lookup_insert_eq.
    + intros c' o'. simpl. rewrite lookup_insert_eq. by intros [= <-].
  - (* no cell: one is created and run *)
    simpl in Hcell, Hother, Hfs, Hid. rewrite lookup_insert_eq in Hcell.
    rewrite Hk, Hans.
    set (job := mkObj (next_id st) (mkSourceAsset k None [])) in *.
    assert (Hother' : ∀ k', k' ≠ k →
              _sourceAssets st2 !! k' = _sourceAssets st !! k').
    { intros k' Hne. rewrite Hother by done. by rewrite lookup_insert_ne. }
    destruct (finish cfg (fs st) k job) as [err v| |] eqn:Hfin.
    + destruct Hcell as [-> Hk']. rewrite Hk'. intros [= <- <-].
      repeat split; auto; try lia.
      * intros ? ? [= <- <-]. done.
      * intros c' o'. rewrite Hk'. intros [= <-]. simpl. intros ->.
        right. apply finish_oid in Hfin. rewrite Hfin, Hid. simpl. lia.
    + destruct Hcell as [-> Hk']. intros [= <- <-].
      repeat split; auto; try lia; try done.
      intros c' o'. rewrite Hk'. by intros [= <-].
    + destruct Hcell as [-> [Hk'|Hk']]; rewrite Hk'; intros [= <- <-];
        repeat split; auto; try lia; try done.
      * intros c' o'. rewrite Hk'. by intros [= <-].
      * intros c' o'. rewrite Hk'. intros [= <-] [= <-]. right.
        rewrite Hid. simpl. lia.
Qed.

End Facts.

(** * The closure walk *)

Section Closure.
Context `{Host}.
Variable cfg : Config.

Lemma peek_answer st k :
  peek cfg st k
  = strip (answer cfg (fs st) k (_sourceAssets st !! k) (next_id st)).
Proof.
  unfold peek. destruct (fetch cfg k st) as [c st'] eqn:Hf.
  apply fetch_spec in Hf as (-> & _). done.
Qed.

Lemma wf_update st st' k :
  wf st → next_id st ≤ next_id st' →
  (∀ k', k' ≠ k → _sourceAssets st' !! k' = _sourceAssets st !! k') →
  (∀ c' o', _sourceAssets st' !! k = Some c' → cell_obj c' = Some o' →
     (∃ c0 o0, _sourceAssets st !! k = Some c0 ∧ cell_obj c0 = Some o0 ∧
               oid o0 = oid o')
     ∨ (next_id st ≤ oid o' < next_id st')) →
  wf st'.
Proof.
  intros [Hlt Hinj] Hid Hother Hk.
  assert (Hold : ∀ k' c' o', _sourceAssets st' !! k' = Some c' →
            cell_obj c' = Some o' →
            (∃ c0 o0, _sourceAssets st !! k' = Some c0 ∧
                      cell_obj c0 = Some o0 ∧ oid o0 = oid o')
            ∨ (k' = k ∧ next_id st ≤ oid o' < next_id st')).
  { intros k' c' o' Hc' Ho'. destruct (decide (k' = k)) as [->|Hne].
    - destruct (Hk _ _ Hc' Ho') as [?|?]; auto.
    - left. rewrite Hother in Hc' by done. eauto. }
  split.
  - intros k' c' o' Hc' Ho'.
    destruct (Hold _ _ _ Hc' Ho') as [(c0 & o0 & Hc0 & Ho0 & Heq)|[_ ?]]; [|lia].
    specialize (Hlt _ _ _ Hc0 Ho0). lia.
  - intros k1 k2 c1 c2 o1 o2 Hc1 Hc2 Ho1 Ho2 Heq.
    destruct (Hold _ _ _ Hc1 Ho1) as [(c1' & o1' & Hc1' & Ho1' & Heq1)|[-> ?]];
      destruct (Hold _ _ _ Hc2 Ho2) as [(c2' & o2' & Hc2' & Ho2' & Heq2)|[-> ?]];
      try done.
    + eapply Hinj; eauto. congruence.
    + specialize (Hlt _ _ _ Hc1' Ho1'). lia.
    + specialize (Hlt _ _ _ Hc2' Ho2'). lia.
Qed.

Lemma grows_refl st : grows cfg st st.
Proof. unfold grows. auto. Qed.

Lemma grows_trans st1 st2 st3 :
  grows cfg st1 st2 → grows cfg st2 st3 → grows cfg st1 st3.
Proof.
  intros (Hc1 & Hp1 & Hw1) (Hc2 & Hp2 & Hw2).
  split; [|split]; auto.
  intros k. by rewrite Hp2.
Qed.

Lemma fetch_grows k st err v st' :
  fetch cfg k st = (Called err v, st') → grows cfg st st'.
Proof.
  intros Hf.
  apply fetch_spec in Hf as (Hans & Hfs & Hid & Hother & Hk & Hobj).
  specialize (Hk _ _ eq_refl).
  split; [|split].
  - intros k' o [e Hc]. destruct (decide (k' = k)) as [->|Hne].
    + rewrite Hc in Hans. simpl in Hans. injection Hans as -> ->.
      by exists e.
    + exists e. by rewrite Hother.
  - intros k'. rewrite !peek_answer, Hfs.
    destruct (decide (k' = k)) as [->|Hne].
    + rewrite Hk. simpl. by rewrite <- Hans.
    + rewrite Hother by done. apply answer_strip.
  - intros Hwf. by eapply wf_update.
Qed.

(** a path that yields an asset does so on request, and the asset is
    cached from then on *)
Lemma fetch_loads st k f :
  peek cfg st k = Some f →
  ∃ o st', fetch cfg k st = (Called None (Some o), st') ∧ fields o = f ∧
           cached st' k o ∧ grows cfg st st'.
Proof.
  unfold peek. destruct (fetch cfg k st) as [c st'] eqn:Hf. simpl.
  destruct c as [[e|] [o|]| |]; try done. intros [= <-].
  exists o, st'. split; [done|]. split; [done|]. split.
  - apply fetch_spec in Hf as (_ & _ & _ & _ & Hk & _).
    exists None. by apply Hk.
  - by eapply fetch_grows.
Qed.

(** what is cached is what a request yields *)
Lemma cached_peek st k o :
  cached st k o →
  peek cfg st k = match _sourceAssets st !! k with
                  | Some (Settled (None, _)) => Some (fields o)
                  | _ => None
                  end.
Proof.
  intros [e Hc]. rewrite peek_answer, Hc. simpl. by destruct e.
Qed.

Lemma cached_fields st k o f :
  cached st k o → peek cfg st k = Some f → f = fields o.
Proof.
  intros Hc Hp. rewrite (cached_peek _ _ _ Hc) in Hp.
  repeat (case_match; simplify_eq/=; try done).
Qed.

Lemma cached_agree st k o o' : cached st k o → cached st k o' → o = o'.
Proof. intros [e He] [e' He']. congruence. Qed.

Variable U : list string.
Variable st0 : Store.
Hypothesis Hclosed : closed cfg U st0.

Abbreviation resolved := (PATH_resolve (basedir cfg)).
Abbreviation ctx := (context_of cfg).

(** the assets of a list of dependencies, fetched one after the other *)
Lemma load_all ps acc w :
  (∀ p, p ∈ ps → resolved p ∈ U) →
  (∀ k, peek cfg (w_store w) k = peek cfg st0 k) →
  ∃ objs st',
    mapSeries ps (λ p, in_store (ctx_getSourceAsset ctx p)) acc w
      = Some (Called None (acc ++ map Some objs),
              mkWalk st' (w_seen w) (w_expanded w)) ∧
    grows cfg (w_store w) st' ∧
    Forall2 (cached st') (map resolved ps) objs.
Proof.
  revert acc w. induction ps as [|p ps IH]; intros acc w HU Hpeek.
  - exists [], (w_store w). simpl. rewrite app_nil_r. destruct w.
    split; [done|]. split; [apply grows_refl|constructor].
  - assert (Hk : resolved p ∈ U) by (apply HU; left).
    destruct (Hclosed _ Hk) as (f & Hf & _).
    rewrite <- Hpeek in Hf.
    destruct (fetch_loads _ _ _ Hf) as (o & st1 & Hfetch & _ & Hc & Hg).
    destruct (IH (acc ++ [Some o]) (mkWalk st1 (w_seen w) (w_expanded w)))
      as (objs & st' & Hmap & Hg' & Hall).
    { intros q Hq. apply HU. by right. }
    { intros k. simpl. destruct Hg as (_ & -> & _). apply Hpeek. }
    exists (o :: objs), st'. split; [|split].
    + simpl. unfold in_store at 1. simpl. rewrite getSourceAsset_fetch, Hfetch.
      simpl in Hmap. rewrite Hmap. by rewrite <- app_assoc.
    + by eapply grows_trans.
    + simpl. constructor; [|done]. destruct Hg' as (Hc' & _). by apply Hc'.
Qed.

Lemma assets_of_objs st ks objs :
  Forall2 (cached st) ks objs → assets_of st ks (map Some objs).
Proof.
  intros Hall. unfold assets_of. apply Forall2_fmap_r.
  eapply Forall2_impl; [exact Hall|]. intros k o Hc. eauto.
Qed.

Lemma assets_of_grows st st' ks deps :
  (∀ k o, cached st k o → cached st' k o) →
  assets_of st ks deps → assets_of st' ks deps.
Proof.
  intros Hg Hall. eapply Forall2_impl; [exact Hall|].
  intros k d (o & -> & Hc). eauto.
Qed.

(** indexOf finds an asset among the seen ones exactly when its path is
    among their paths *)
Lemma was_seen_iff st ks seen k o :
  wf st → assets_of st ks seen → cached st k o →
  was_seen seen (Some o) = true ↔ k ∈ ks.
Proof.
  intros [_ Hinj] Hall Hc. induction Hall as [|k1 s1 ks seen (o1 & -> & Hc1) _ IH].
  - simpl. split; [done|]. by intros ?%elem_of_nil.
  - simpl. rewrite orb_true_iff, bool_decide_eq_true, IH, elem_of_cons.
    split; (intros [Heq|?]; [left|by right]).
    + destruct Hc as [e He], Hc1 as [e1 He1]. by eapply Hinj.
    + subst k1. by rewrite (cached_agree _ _ _ _ Hc Hc1).
Qed.

Lemma seen_bound ks :
  NoDup ks → (∀ k, k ∈ ks → k ∈ U) → length ks ≤ length U.
Proof. intros Hnd Hsub. apply submseteq_length, NoDup_submseteq; done. Qed.

Lemma ordered_snoc es k :
  ordered cfg st0 es →
  (∀ k', depends cfg st0 k k' → k' ∈ es ∨ rtc (depends cfg st0) k' k) →
  ordered cfg st0 (es ++ [k]).
Proof.
  intros Hes Hk es1 x es2 Heq k' Hdep.
  destruct es2 as [|y es2 _] using rev_ind.
  - apply app_inj_tail in Heq as [-> ->]. by apply Hk.
  - rewrite app_comm_cons, app_assoc in Heq.
    apply app_inj_tail in Heq as [-> _]. by eapply Hes.
Qed.

Lemma walking_grows ks es w st' :
  walking cfg U st0 ks es w → grows cfg (w_store w) st' →
  walking cfg U st0 ks es (mkWalk st' (w_seen w) (w_expanded w)).
Proof.
  intros (Hwf & Hpeek & Hseen & Hexp & Hrest) (Hc & Hp & Hw).
  split; [by apply Hw|]. split; [intros k; simpl; by rewrite Hp|].
  split; [by eapply assets_of_grows|].
  split; [|done]. simpl. eapply Forall2_impl; [exact Hexp|]. auto.
Qed.

Lemma walking_push_seen ks es w k o :
  walking cfg U st0 ks es w → cached (w_store w) k o → k ∉ ks → k ∈ U →
  walking cfg U st0 (ks ++ [k]) es (push_seen (Some o) w).
Proof.
  intros (Hwf & Hpeek & Hseen & Hexp & Hnd & HU & Hnd' & Hsub) Hc Hk HkU.
  split; [done|]. split; [done|]. split.
  { apply Forall2_app; [done|]. constructor; [eauto|constructor]. }
  split; [done|]. split.
  { apply NoDup_app. split; [done|]. split; [|apply NoDup_singleton].
    intros x Hx ->%list_elem_of_singleton. done. }
  split.
  { intros x [?| ->%list_elem_of_singleton]%elem_of_app; auto. }
  split; [done|]. intros x Hx. apply elem_of_app. auto.
Qed.

Lemma walking_push_expanded ks es w k o :
  walking cfg U st0 ks es w → cached (w_store w) k o → k ∈ ks → k ∉ es →
  walking cfg U st0 ks (es ++ [k]) (push_expanded o w).
Proof.
  intros (Hwf & Hpeek & Hseen & Hexp & Hnd & HU & Hnd' & Hsub) Hc Hk Hes.
  split; [done|]. split; [done|]. split; [done|]. split.
  { apply Forall2_app; [done|]. by repeat constructor. }
  split; [done|]. split; [done|]. split.
  { apply NoDup_app. split; [done|]. split; [|apply NoDup_singleton].
    intros x Hx ->%list_elem_of_singleton. done. }
  intros x [?| ->%list_elem_of_singleton]%elem_of_app; auto.
Qed.

(** the dependencies of a cached asset of [U], as paths *)
Lemma cached_edges st k o :
  (∀ k, peek cfg st k = peek cfg st0 k) → cached st k o → k ∈ U →
  edges cfg st0 k = map resolved (sa_dependencies (fields o)) ∧
  ∀ p, p ∈ sa_dependencies (fields o) → resolved p ∈ U.
Proof.
  intros Hpeek Hc Hk. destruct (Hclosed _ Hk) as (f & Hf & HfU).
  unfold edges. rewrite Hf.
  rewrite <- Hpeek in Hf. apply (cached_fields _ _ _ _ Hc) in Hf as ->.
  done.
Qed.

(** one step of the loop: an asset of [U] is skipped when seen, and
    otherwise expanded after its dependencies *)
Lemma visit_spec fuel' k o w ks es :
  walks cfg U st0 (_expandDependencies fuel' ctx) fuel'
        (λ w' v, v = w_expanded w') →
  walking cfg U st0 ks es w → cached (w_store w) k o → k ∈ U →
  length U < S fuel' + length ks →
  (∀ s, s ∈ ks → s ∉ es → tc (depends cfg st0) s k) →
  ordered cfg st0 es →
  ∃ w', visit (_expandDependencies fuel' ctx) ctx (Some o) w
          = Some (Called None tt, w') ∧
        walked cfg U st0 ks es [k] w w'.
Proof.
  intros Hrec Hw Hc HkU Hfuel Hstack Hord.
  pose proof Hw as (Hwf & Hpeek & Hseen & Hexp & Hnd & HU & Hnd' & Hsub).
  unfold visit.
  destruct (was_seen (w_seen w) (Some o)) eqn:Hs.
  { (* seen before *)
    apply (was_seen_iff _ _ _ _ _ Hwf Hseen Hc) in Hs.
    exists w. split; [done|]. exists [], []. rewrite !app_nil_r.
    split; [done|]. split; [done|]. split; [|done].
    by intros x ->%list_elem_of_singleton. }
  assert (Hk : k ∉ ks).
  { intros Hin. apply (was_seen_iff _ _ _ _ _ Hwf Hseen Hc) in Hin. congruence. }
  assert (Hkes : k ∉ es) by (intros Hin; by apply Hk, Hsub).
  destruct (cached_edges _ _ _ Hpeek Hc HkU) as [Hedges HdepsU].
  pose proof (walking_push_seen _ _ _ _ _ Hw Hc Hk HkU) as Hw1.
  case_decide as Hlen.
  { (* no dependencies *)
    apply nil_length_inv in Hlen.
    eexists. split; [done|]. exists [k], [k].
    split. { apply walking_push_expanded; try done. apply elem_of_app; right; left. }
    split; [done|]. split.
    { intros x ->%list_elem_of_singleton. apply elem_of_app; right; left. }
    split; [|done]. apply ordered_snoc; [done|].
    intros k'. unfold depends. rewrite Hedges, Hlen. by intros ?%elem_of_nil. }
  (* the dependencies are fetched, walked, and the asset comes last *)
  destruct (load_all (sa_dependencies (fields o)) [] (push_seen (Some o) w))
    as (objs & st' & Hmap & Hg & Hall); [done|done|].
  rewrite Hmap. simpl.
  pose proof (walking_grows _ _ _ _ Hw1 Hg) as Hw1'. simpl in Hw1'.
  destruct (Hrec (map Some objs) (map resolved (sa_dependencies (fields o)))
              _ _ _ Hw1') as (v & w2 & Hrun & _ & new & new' & Hw2 & Hperm & Hin & Hord2 & Hmono).
  { by apply assets_of_objs. }
  { intros x (p & -> & Hp)%list_elem_of_fmap. by apply HdepsU. }
  { rewrite length_app. simpl. lia. }
  { intros s' Hs' Hses d Hd.
    assert (Hkd : depends cfg st0 k d) by (unfold depends; by rewrite Hedges).
    apply elem_of_app in Hs' as [Hs'| ->%list_elem_of_singleton].
    - eapply tc_r; [by apply Hstack|done].
    - by apply tc_once. }
  { done. }
  rewrite Hrun.
  assert (Hc2 : cached (w_store w2) k o).
  { apply Hmono. simpl. destruct Hg as (Hg & _). by apply Hg. }
  pose proof Hw2 as (_ & _ & _ & _ & Hnd2 & _).
  assert (Hknew : k ∉ new).
  { rewrite Hperm. intros Hin'.
    rewrite <- app_assoc in Hnd2. apply NoDup_app in Hnd2 as (_ & _ & Hnd2).
    apply NoDup_app in Hnd2 as (_ & Hnd2 & _).
    by apply (Hnd2 k); [left|]. }
  eexists. split; [done|]. exists (new ++ [k]), ([k] ++ new').
  rewrite !app_assoc. split.
  { apply walking_push_expanded; try done.
    - apply elem_of_app; left. apply elem_of_app; right; left.
    - intros [?|?]%elem_of_app; done. }
  split. { rewrite Hperm. apply Permutation_app_comm. }
  split. { intros x ->%list_elem_of_singleton.
           apply elem_of_app; left. apply elem_of_app; right; left. }
  split; [|simpl; intros k1 o1 Hc1; apply Hmono; simpl;
            destruct Hg as (Hg & _); by apply Hg].
  apply ordered_snoc; [done|].
  intros k' Hdep.
  assert (Hk' : k' ∈ (ks ++ [k]) ++ new').
  { apply Hin. unfold depends in Hdep. by rewrite Hedges in Hdep. }
  apply elem_of_app in Hk' as [[Hk'| ->%list_elem_of_singleton]%elem_of_app|Hk'].
  - destruct (decide (k' ∈ es)) as [?|Hnot].
    + left. apply elem_of_app; by left.
    + right. apply tc_rtc. by apply Hstack.
  - right. done.
  - left. apply elem_of_app; right. by rewrite Hperm.
Qed.

(** the loop over a list of assets, given that the recursive call walks *)
Lemma foreach_spec fuel' :
  walks cfg U st0 (_expandDependencies fuel' ctx) fuel'
        (λ w' v, v = w_expanded w') →
  walks cfg U st0
        (λ deps, forEachSeries deps (visit (_expandDependencies fuel' ctx) ctx))
        (S fuel') (λ _ _, True).
Proof.
  intros Hrec deps. induction deps as [|d deps IH];
    intros dks w ks es Hw Hdeps HU Hfuel Hstack Hord.
  - exists tt, w. split; [done|]. split; [done|].
    exists [], []. rewrite !app_nil_r. apply Forall2_nil_inv_r in Hdeps as ->.
    split; [done|]. split; [done|]. split; [|done]. by intros k ?%elem_of_nil.
  - apply Forall2_cons_inv_r in Hdeps
      as (k & dks' & (o & -> & Hc) & Hdeps & ->).
    destruct (visit_spec fuel' k o w ks es Hrec Hw Hc)
      as (w1 & Hvisit & new1 & new1' & Hw1 & Hperm1 & Hin1 & Hord1 & Hmono1);
      [apply HU; left|done| |done|].
    { intros s Hs Hses. apply (Hstack s Hs Hses). left. }
    destruct (IH dks' w1 (ks ++ new1') (es ++ new1) Hw1)
      as (v & w2 & Hrun & _ & new2 & new2' & Hw2 & Hperm2 & Hin2 & Hord2 & Hmono2).
    { by eapply assets_of_grows. }
    { intros x Hx. apply HU. by right. }
    { rewrite length_app. lia. }
    { intros s Hs Hses d Hd. apply (Hstack s).
      - apply elem_of_app in Hs as [?|Hs]; [done|].
        exfalso. apply Hses. apply elem_of_app; right. by rewrite Hperm1.
      - intros Hin. apply Hses. apply elem_of_app; by left.
      - by right. }
    { done. }
    exists tt, w2. split.
    { simpl. rewrite Hvisit. by destruct v. }
    split; [done|]. exists (new1 ++ new2), (new1' ++ new2').
    rewrite !app_assoc. split; [done|].
    split. { by apply Permutation_app. }
    split. { intros x [->|Hx]%elem_of_cons; [|by apply Hin2].
             apply elem_of_app; left. apply Hin1; left. }
    split; [done|]. auto.
Qed.

(** the walk ends, given fuel beyond the number of paths not yet seen *)
Lemma expand_spec fuel :
  walks cfg U st0 (_expandDependencies fuel ctx) fuel
        (λ w' v, v = w_expanded w').
Proof.
  induction fuel as [|fuel IH];
    intros deps dks w ks es Hw Hdeps HU Hfuel Hstack Hord.
  - destruct Hw as (_ & _ & _ & _ & Hnd & Hsub & _).
    pose proof (seen_bound ks Hnd Hsub). simpl in Hfuel. lia.
  - destruct (foreach_spec fuel IH deps dks w ks es)
      as (v & w' & Hrun & _ & Hwalked); try done.
    exists (w_expanded w'), w'. simpl. simpl in Hrun. by rewrite Hrun.
Qed.

(** distinct paths hold distinct objects *)
Lemma cached_NoDup st es objs :
  wf st → Forall2 (cached st) es objs → NoDup es → NoDup (map oid objs).
Proof.
  intros [_ Hinj] Hall. induction Hall as [|k o es objs Hc Hall IH].
  - constructor.
  - intros [Hk Hnd]%NoDup_cons. simpl. apply NoDup_cons. split; [|by apply IH].
    intros (o' & Heq & Ho')%list_elem_of_fmap.
    apply list_elem_of_lookup in Ho' as [i Hi].
    destruct (Forall2_lookup_r _ _ _ _ _ Hall Hi) as (k' & Hk' & Hc').
    destruct Hc as [e He], Hc' as [e' He'].
    assert (k = k') as -> by (by eapply Hinj).
    apply Hk. by eapply list_elem_of_lookup_2.
Qed.

(** the walk from the start: nothing seen, nothing expanded *)
Lemma walk_from_roots roots rks fuel :
  wf st0 → assets_of st0 rks roots → (∀ k, k ∈ rks → k ∈ U) →
  length U < fuel →
  ∃ w' es,
    _expandDependencies fuel ctx roots (mkWalk st0 [] [])
      = Some (Called None (w_expanded w'), w') ∧
    wf (w_store w') ∧
    (∀ k, peek cfg (w_store w') k = peek cfg st0 k) ∧
    (∀ k o, cached st0 k o → cached (w_store w') k o) ∧
    Forall2 (cached (w_store w')) es (w_expanded w') ∧
    NoDup es ∧ (∀ k, k ∈ es → k ∈ U) ∧ (∀ k, k ∈ rks → k ∈ es) ∧
    ordered cfg st0 es ∧
    NoDup (map oid (w_expanded w')) ∧
    (∀ r, Some r ∈ roots → r ∈ w_expanded w').
Proof.
  intros Hwf Hroots HU Hfuel.
  destruct (expand_spec fuel roots rks (mkWalk st0 [] []) [] [])
    as (v & w' & Hrun & -> & new & new' & Hw & Hperm & Hin & Hord & Hmono);
    try done.
  { split; [done|]. split; [done|]. split; [constructor|].
    split; [constructor|]. split; [constructor|]. split; [by intros k ?%elem_of_nil|].
    split; [constructor|done]. }
  { simpl. lia. }
  { intros es1 k es2 Heq. by destruct es1. }
  simpl in *.
  destruct Hw as (Hwf' & Hpeek & _ & Hexp & _ & Hsub & Hnd & Hsub').
  exists w', new. split; [done|]. split; [done|]. split; [done|].
  assert (Hin' : ∀ k, k ∈ rks → k ∈ new)
    by (intros k Hk; rewrite Hperm; by apply Hin).
  split; [done|]. split; [done|]. split; [done|].
  split; [auto|]. split; [done|]. split; [done|].
  split; [by eapply cached_NoDup|].
  intros r Hr. apply list_elem_of_lookup in Hr as [i Hi].
  destruct (Forall2_lookup_r _ _ _ _ _ Hroots Hi) as (k & Hk & o & [= <-] & Hc).
  assert (Hkes : k ∈ new) by (apply Hin'; by eapply list_elem_of_lookup_2).
  apply list_elem_of_lookup in Hkes as [j Hj].
  destruct (Forall2_lookup_l _ _ _ _ _ Hexp Hj) as (o' & Ho' & Hc').
  rewrite (cached_agree _ _ _ _ (Hmono _ _ Hc) Hc').
  by eapply list_elem_of_lookup_2.
Qed.

(** C3: over a dependency set [U] -- every path in it yields an asset whose
    dependencies are in [U] again, cycles or not -- the walk from any
    roots in [U] comes to its end once the fuel exceeds the size of [U]:
    it calls back without an error, nothing is thrown, and no asset is
    expanded twice. *)
Theorem closure_terminates roots rks fuel :
  wf st0 → assets_of st0 rks roots → (∀ k, k ∈ rks → k ∈ U) →
  length U < fuel →
  ∃ expanded w',
    _expandDependencies fuel (context_of cfg) roots (mkWalk st0 [] [])
      = Some (Called None expanded, w') ∧
    expanded = w_expanded w' ∧
    NoDup (map oid expanded) ∧
    (∀ r, Some r ∈ roots → r ∈ expanded).
Proof.
  intros Hwf Hroots HU Hfuel.
  destruct (walk_from_roots roots rks fuel Hwf Hroots HU Hfuel)
    as (w' & es & Hrun & _ & _ & _ & _ & _ & _ & _ & _ & Hnd & Hin).
  by exists (w_expanded w'), w'.
Qed.

(** the walk over an acyclic dependency set: the general half of C2 *)
Lemma walk_post_order roots rks fuel :
  acyclic cfg U st0 →
  wf st0 → assets_of st0 rks roots → (∀ k, k ∈ rks → k ∈ U) →
  length U < fuel →
  ∃ expanded w',
    _expandDependencies fuel (context_of cfg) roots (mkWalk st0 [] [])
      = Some (Called None expanded, w') ∧
    post_order cfg (w_store w') expanded ∧
    (∀ r, Some r ∈ roots → r ∈ expanded).
Proof.
  intros Hacyc Hwf Hroots HU Hfuel.
  destruct (walk_from_roots roots rks fuel Hwf Hroots HU Hfuel)
    as (w' & es & Hrun & Hwf' & Hpeek & _ & Hexp & _ & HesU & _ & Hord
        & Hnd & Hin).
  exists (w_expanded w'), w'. split; [done|]. split; [|done].
  split; [done|]. intros i a p Hi Hp.
  destruct (Forall2_lookup_r _ _ _ _ _ Hexp Hi) as (k & Hk & Hc).
  assert (HkU : k ∈ U) by (apply HesU; by eapply list_elem_of_lookup_2).
  destruct (cached_edges _ _ _ Hpeek Hc HkU) as [Hedges _].
  assert (Hdep : depends cfg st0 k (resolved p)).
  { unfold depends. rewrite Hedges. by apply list_elem_of_fmap_2. }
  destruct (Hord (take i es) k (drop (S i) es)) with (k' := resolved p)
    as [Hbefore|Hback]; [by rewrite take_drop_middle|done| |].
  - apply list_elem_of_lookup in Hbefore as [j Hj].
    apply lookup_take_Some in Hj as [Hj Hlt].
    destruct (Forall2_lookup_l _ _ _ _ _ Hexp Hj) as (d & Hd & Hcd).
    by exists j, d.
  - exfalso. apply (Hacyc k HkU). eapply tc_rtc_r; [by apply tc_once|done].
Qed.

Lemma closedb_closed st : closedb cfg U st = true → closed cfg U st.
Proof.
  unfold closedb. rewrite forallb_forall. intros Hall k Hk.
  apply list_elem_of_In, Hall in Hk.
  destruct (peek cfg st k) as [f|]; [|done].
  exists f. split; [done|]. intros p Hp.
  rewrite forallb_forall in Hk. apply list_elem_of_In, Hk in Hp.
  by apply bool_decide_eq_true in Hp.
Qed.

End Closure.

Section Ranks.
Context `{Host}.

(** a dependency set whose paths can be ranked has no cycle *)
Lemma ranked_acyclic cfg U st rank :
  closed cfg U st → rankedb cfg U st rank = true → acyclic cfg U st.
Proof.
  intros Hclosed Hrank.
  assert (Hstep : ∀ a b, a ∈ U → depends cfg st a b → b ∈ U ∧ rank b < rank a).
  { intros a b Ha Hab. split.
    - destruct (Hclosed _ Ha) as (f & Hf & HfU).
      unfold depends, edges in Hab. rewrite Hf in Hab.
      apply list_elem_of_fmap in Hab as (p & -> & Hp). by apply HfU.
    - unfold rankedb in Hrank. rewrite forallb_forall in Hrank.
      apply list_elem_of_In, Hrank in Ha. rewrite forallb_forall in Ha.
      apply list_elem_of_In, Ha in Hab. by apply Nat.ltb_lt in Hab. }
  assert (Htc : ∀ a b, tc (depends cfg st) a b → a ∈ U → b ∈ U ∧ rank b < rank a).
  { intros a b Hab. induction Hab as [a b Hab|a b c Hab _ IH]; intros Ha.
    - by apply Hstep.
    - destruct (Hstep _ _ Ha Hab) as [Hb ?]. destruct (IH Hb). split; [done|lia]. }
  intros k Hk Hcycle. destruct (Htc _ _ Hcycle Hk). lia.
Qed.

Lemma wf_reset p : wf (store (invalidate p)).
Proof.
  split; intros *; simpl; rewrite lookup_empty; done.
Qed.

Lemma fetch_wf cfg k st :
  wf st → wf (snd (fetch cfg k st)).
Proof.
  intros Hwf. destruct (fetch cfg k st) as [c st'] eqn:Hf.
  apply fetch_spec in Hf as (_ & _ & Hid & Hother & _ & Hobj).
  by eapply wf_update.
Qed.

End Ranks.

(** * Further properties of the walk *)

Section Walks.
Context `{Host}.
Variable context : Context.

Lemma was_seen_holds seen a :
  was_seen seen (Some a) = true ↔ holds seen (oid a).
Proof.
  unfold was_seen, holds. rewrite existsb_exists. split.
  - intros ([o|] & Hin & Heq); [|done]. simpl in Heq.
    apply bool_decide_eq_true in Heq. exists o. split; [|done].
    by apply list_elem_of_In.
  - intros (o & Hin & Heq). exists (Some o). split.
    + by apply list_elem_of_In.
    + simpl. by apply bool_decide_eq_true.
Qed.

Lemma holds_prefix seen seen' i : seen `prefix_of` seen' → holds seen i → holds seen' i.
Proof.
  intros [l ->] (o & Hin & Heq). exists o. split; [|done].
  apply elem_of_app. by left.
Qed.

(** fetching dependencies leaves the arrays alone *)
Lemma mapSeries_arrays ps acc w c w' :
  mapSeries ps (λ p, in_store (ctx_getSourceAsset context p)) acc w
    = Some (c, w') →
  w_seen w' = w_seen w ∧ w_expanded w' = w_expanded w.
Proof.
  revert acc w. induction ps as [|p ps IH]; intros acc w; simpl.
  - by intros [= <- <-].
  - unfold in_store at 1.
    destruct (ctx_getSourceAsset context p (w_store w)) as [[[e|] v| |] st];
      simpl; try (by intros [= <- <-]).
    intros Hrest. by apply IH in Hrest.
Qed.

Lemma tidy_push_expanded stack w a :
  tidy stack w → holds (w_seen w) (oid a) → oid a ∉ stack →
  oid a ∉ map oid (w_expanded w) →
  tidy stack (push_expanded a w).
Proof.
  intros (Hnd & Hseen & Hstack & Hheld) Ha Hnot Hnew.
  split; [|split; [|split]]; simpl.
  - rewrite map_app. apply NoDup_app. split; [done|].
    split; [|apply NoDup_singleton].
    intros i Hi ->%list_elem_of_singleton. done.
  - intros x [?| ->%list_elem_of_singleton]%elem_of_app; auto.
  - intros x [?| ->%list_elem_of_singleton]%elem_of_app; auto.
  - done.
Qed.

Lemma visit_keeps recur stack asset w :
  (∀ stack' l w', tidy stack' w' → keeps stack' w' (recur l w')) →
  tidy stack w →
  keeps stack w (visit recur context asset w).
Proof.
  intros Hrec Hw. pose proof Hw as (Hnd & Hseen & Hstack & Hheld).
  unfold visit.
  destruct (was_seen (w_seen w) asset) eqn:Hs;
    [simpl; split; [done|split; reflexivity]|].
  assert (Hpre : w_seen w `prefix_of` w_seen (push_seen asset w))
    by (by exists [asset]).
  assert (Hw1 : tidy stack (push_seen asset w)).
  { split; [done|]. split; [|split; [done|]].
    - intros a Ha. eapply holds_prefix; eauto.
    - intros i Hi. eapply holds_prefix; eauto. }
  destruct asset as [a|]; [|by simpl].
  assert (Hfresh : ¬ holds (w_seen w) (oid a)).
  { rewrite <- was_seen_holds. by rewrite Hs. }
  assert (Ha : holds (w_seen (push_seen (Some a) w)) (oid a)).
  { exists a. split; [|done]. simpl. apply elem_of_app. right. by left. }
  assert (Hnew : oid a ∉ map oid (w_expanded w)).
  { intros (x & Heq & Hx)%list_elem_of_fmap. apply Hfresh.
    rewrite Heq. by apply Hseen. }
  assert (Hnot : oid a ∉ stack) by (intros Hin; by apply Hfresh, Hheld).
  case_decide.
  { simpl. split; [by apply tidy_push_expanded|]. split; [done|].
    by exists [a]. }
  destruct (mapSeries _ _ _ _) as [[[err assets| |] w1]|] eqn:Hmap;
    try done;
    apply mapSeries_arrays in Hmap as [Hs1 He1]; simpl in Hs1, He1.
  2,3: simpl; split; [|by rewrite Hs1, He1].
  2,3: destruct Hw1 as (? & ? & ? & ?);
       split; [by rewrite He1|]; split; [by rewrite He1, Hs1|];
       split; [by rewrite He1|by rewrite Hs1].
  assert (Hw1' : tidy (oid a :: stack) w1).
  { destruct Hw1 as (? & H1 & H2 & H3).
    split; [by rewrite He1|]. split; [by rewrite He1, Hs1|].
    split.
    - rewrite He1. intros x Hx [Heq|?]%elem_of_cons; [|by eapply H2].
      apply Hfresh. rewrite <- Heq. by apply Hseen.
    - rewrite Hs1. intros i [->|?]%elem_of_cons; auto. }
  pose proof (Hrec _ assets _ Hw1') as Hk.
  destruct (recur assets w1) as [[[err' v| |] w2]|]; [| | |done].
  - destruct Hk as (Hw2 & Hs2 & He2). simpl.
    assert (Hw2' : tidy stack w2).
    { destruct Hw2 as (? & ? & H2 & H3). split; [done|]. split; [done|].
      split.
      - intros x Hx Hin. apply (H2 x Hx). by right.
      - intros i Hi. apply H3. by right. }
    split; [|split].
    + destruct Hw2 as (Hnd2 & _ & H2 & H3).
      apply tidy_push_expanded; try done.
      * apply H3. by left.
      * intros (x & Heq & Hx)%list_elem_of_fmap.
        apply (H2 x Hx). rewrite Heq. by left.
    + simpl. etrans; [|exact Hs2]. rewrite Hs1. by exists [Some a].
    + simpl. rewrite He1 in He2. destruct He2 as [l ->].
      exists (l ++ [a]). by rewrite app_assoc.
  - destruct Hk as (Hw2 & Hs2 & He2); simpl.
    split; [|split; [etrans; [|exact Hs2]; rewrite Hs1; by exists [Some a]
                    |by rewrite He1 in He2]].
    destruct Hw2 as (? & ? & H2 & H3); split; [done|]; split; [done|];
      split; [intros x Hx Hin; apply (H2 x Hx); by right
             |intros i Hi; apply H3; by right].
  - destruct Hk as (Hw2 & Hs2 & He2); simpl.
    split; [|split; [etrans; [|exact Hs2]; rewrite Hs1; by exists [Some a]
                    |by rewrite He1 in He2]].
    destruct Hw2 as (? & ? & H2 & H3); split; [done|]; split; [done|];
      split; [intros x Hx Hin; apply (H2 x Hx); by right
             |intros i Hi; apply H3; by right].
Qed.

Lemma keeps_then stack w w1 {A B} (c : Completion A)
    (r : option (Completion B * Walk)) :
  keeps stack w (Some (c, w1)) → keeps stack w1 r → keeps stack w r.
Proof.
  intros (_ & Hs & He). destruct r as [[c' w2]|]; [|done].
  intros (Hw2 & Hs2 & He2). split; [done|]. split; by etrans.
Qed.

Lemma forEachSeries_keeps (iterator : option Obj → Task (S:=Walk) unit)
    stack deps w :
  (∀ asset w', tidy stack w' → keeps stack w' (iterator asset w')) →
  tidy stack w →
  keeps stack w (forEachSeries deps iterator w).
Proof.
  intros Hit. revert w. induction deps as [|d deps IH]; intros w Hw; simpl.
  - split; [done|]. split; reflexivity.
  - pose proof (Hit d w Hw) as Hd.
    destruct (iterator d w) as [[[[e|] v| |] w1]|]; try done.
    eapply keeps_then; [exact Hd|]. apply IH. by destruct Hd.
Qed.

Lemma expand_keeps fuel stack deps w :
  tidy stack w → keeps stack w (_expandDependencies fuel context deps w).
Proof.
  revert stack deps w. induction fuel as [|fuel IH]; intros stack deps w Hw;
    [done|]. simpl.
  pose proof (forEachSeries_keeps
                (visit (_expandDependencies fuel context) context)
                stack deps w) as Hloop.
  destruct (forEachSeries deps _ w) as [[[err v| |] w']|]; try done;
    apply Hloop; try done; intros asset w1 Hw1; by apply visit_keeps.
Qed.

(** X1: the walk only ever appends to the two arrays it is handed, and if
    [expanded] came without repeats and within [seen], so it stays: no
    object is expanded twice and every expanded object has been seen --
    whatever the context answers and however the walk ends. *)
Theorem walk_keeps_arrays_tidy fuel deps w :
  tidy [] w → keeps [] w (_expandDependencies fuel context deps w).
Proof. apply expand_keeps. Qed.

Lemma visit_never_fails recur asset w :
  calls_back_with_error (visit recur context asset w) = false.
Proof.
  unfold visit. repeat (case_match; simplify_eq/=; try done).
Qed.

Lemma forEachSeries_never_fails {A} (iterator : A → Task (S:=Walk) unit) arr w :
  (∀ x w', calls_back_with_error (iterator x w') = false) →
  calls_back_with_error (forEachSeries arr iterator w) = false.
Proof.
  intros Hit. revert w. induction arr as [|x arr IH]; intros w; simpl; [done|].
  pose proof (Hit x w) as Hx.
  destruct (iterator x w) as [[[[e|] v| |] w1]|]; auto.
Qed.

Lemma expand_never_fails fuel deps w :
  calls_back_with_error (_expandDependencies fuel context deps w) = false.
Proof.
  destruct fuel as [|fuel]; [done|]. simpl.
  pose proof (forEachSeries_never_fails
                (visit (_expandDependencies fuel context) context) deps w
                (visit_never_fails _)) as Hloop.
  by destruct (forEachSeries deps _ w) as [[[[e|] v| |] w']|].
Qed.

(** X2: the walk never hands an error to its callback, whatever the
    context answers: an error of getSourceAsset is dropped on the way
    (lines 95-99), so all the caller can get is done(null, expanded), an
    exception, or nothing.  Hence SimpleMergeLinker never calls back with
    an error either: its [if (err) return done(err)] never fires. *)
Theorem walk_never_calls_back_with_error fuel deps w asset st :
  calls_back_with_error (_expandDependencies fuel context deps w) = false
  ∧ calls_back_with_error (SimpleMergeLinker fuel asset context st) = false.
Proof.
  split; [apply expand_never_fails|].
  unfold SimpleMergeLinker.
  pose proof (expand_never_fails fuel (ca_assets asset) (mkWalk st [] []))
    as Hw.
  by destruct (_expandDependencies _ _ _ _) as [[[[e|] v| |] w']|].
Qed.

Lemma holds_snoc seen a i :
  holds (seen ++ [Some a]) i ↔ holds seen i ∨ i = oid a.
Proof.
  unfold holds. split.
  - intros (o & [Hin|Hin%list_elem_of_singleton]%elem_of_app & Heq).
    + left. by exists o.
    + right. by simplify_eq.
  - intros [(o & Hin & Heq)| ->].
    + exists o. split; [|done]. apply elem_of_app. by left.
    + exists a. split; [|done]. apply elem_of_app. right. by left.
Qed.

Lemma tidy_descend stack w w1 a :
  tidy stack w → ¬ holds (w_seen w) (oid a) →
  w_seen w1 = w_seen w ++ [Some a] → w_expanded w1 = w_expanded w →
  tidy (oid a :: stack) w1.
Proof.
  intros (Hnd & Hseen & Hstack & Hheld) Hfresh Hs He.
  split; [by rewrite He|]. split; [|split].
  - rewrite He, Hs. intros x Hx. apply holds_snoc. left. by apply Hseen.
  - rewrite He. intros x Hx [Heq|?]%elem_of_cons; [|by eapply Hstack].
    apply Hfresh. rewrite <- Heq. by apply Hseen.
  - rewrite Hs. intros i [->|?]%elem_of_cons; apply holds_snoc; auto.
Qed.

Lemma visit_completes recur stack asset w :
  (∀ stack' l w', tidy stack' w' → keeps stack' w' (recur l w')) →
  (∀ stack' l w', tidy stack' w' → covered stack' w' →
                  completes stack' l (recur l w')) →
  tidy stack w → covered stack w →
  completes stack [asset] (visit recur context asset w).
Proof.
  intros Hkeep Hrec Hw [Hnone Hcov]. unfold visit.
  destruct (was_seen (w_seen w) asset) eqn:Hs.
  { simpl. split; [done|]. intros d ->%list_elem_of_singleton.
    destruct asset as [a|].
    - exists a. split; [done|]. by apply was_seen_holds.
    - exfalso. apply Hnone. unfold was_seen in Hs.
      apply existsb_exists in Hs as ([o|] & Hin & Heq); [done|].
      by apply list_elem_of_In. }
  destruct asset as [a|]; [|done].
  assert (Hfresh : ¬ holds (w_seen w) (oid a)).
  { rewrite <- was_seen_holds. by rewrite Hs. }
  assert (Hnone' : None ∉ w_seen w ++ [Some a]).
  { intros [?|?%list_elem_of_singleton]%elem_of_app; by simplify_eq. }
  case_decide.
  { simpl. split; [split; [done|]|].
    - simpl. rewrite map_app. intros i [Hi| ->]%holds_snoc.
      + destruct (Hcov i Hi); [left|by right].
        apply elem_of_app. by left.
      + left. apply elem_of_app. right. by left.
    - intros d ->%list_elem_of_singleton. exists a. split; [done|].
      simpl. apply holds_snoc. by right. }
  destruct (mapSeries _ _ _ _) as [[[err assets| |] w1]|] eqn:Hmap;
    try done.
  apply mapSeries_arrays in Hmap as [Hs1 He1]; simpl in Hs1, He1.
  pose proof (tidy_descend stack w w1 a Hw Hfresh Hs1 He1) as Hw1.
  assert (Hc1 : covered (oid a :: stack) w1).
  { split; [by rewrite Hs1|]. rewrite Hs1, He1.
    intros i [Hi| ->]%holds_snoc; [|right; by left].
    destruct (Hcov i Hi); [by left|right; by right]. }
  pose proof (Hkeep _ assets _ Hw1) as Hk.
  pose proof (Hrec _ assets _ Hw1 Hc1) as Hr.
  destruct (recur assets w1) as [[[err' v| |] w2]|]; try done.
  destruct Hk as (_ & Hs2 & _). destruct Hr as [[Hnone2 Hcov2] _].
  simpl. split; [split; [done|]|].
  - simpl. intros i Hi. rewrite map_app.
    destruct (Hcov2 i Hi) as [?|[->|?]%elem_of_cons].
    + left. apply elem_of_app. by left.
    + left. apply elem_of_app. right. by left.
    + by right.
  - intros d ->%list_elem_of_singleton. exists a. split; [done|]. simpl.
    eapply holds_prefix; [exact Hs2|]. rewrite Hs1. apply holds_snoc.
    by right.
Qed.

Lemma forEachSeries_completes (iterator : option Obj → Task (S:=Walk) unit)
    stack deps w :
  (∀ asset w', tidy stack w' → keeps stack w' (iterator asset w')) →
  (∀ asset w', tidy stack w' → covered stack w' →
               completes stack [asset] (iterator asset w')) →
  (∀ asset w', calls_back_with_error (iterator asset w') = false) →
  tidy stack w → covered stack w →
  completes stack deps (forEachSeries deps iterator w).
Proof.
  intros Hkeep Hit Hnf. revert w.
  induction deps as [|d deps IH]; intros w Hw Hc; simpl.
  - split; [done|]. by intros d Hd%elem_of_nil.
  - pose proof (Hkeep d w Hw) as Hk. pose proof (Hit d w Hw Hc) as Hd.
    pose proof (Hnf d w) as Hn.
    destruct (iterator d w) as [[[[e|] v| |] w1]|]; try done.
    destruct Hk as (Hw1 & _ & _). destruct Hd as [Hc1 Hd].
    pose proof (IH w1 Hw1 Hc1) as Hrest.
    pose proof (forEachSeries_keeps iterator stack deps w1 Hkeep Hw1)
      as Hk1.
    destruct (forEachSeries deps iterator w1) as [[[err' v'| |] w2]|];
      try done.
    destruct Hrest as [Hc2 Hall]. destruct Hk1 as (_ & Hs2 & _).
    split; [done|]. intros x [->|Hx]%elem_of_cons; [|by apply Hall].
    destruct (Hd d) as (o & -> & Ho); [by left|].
    exists o. split; [done|]. by eapply holds_prefix.
Qed.

Lemma expand_completes fuel stack deps w :
  tidy stack w → covered stack w →
  completes stack deps (_expandDependencies fuel context deps w).
Proof.
  revert stack deps w.
  induction fuel as [|fuel IH]; intros stack deps w Hw Hc; [done|]. simpl.
  pose proof (forEachSeries_completes
                (visit (_expandDependencies fuel context) context)
                stack deps w) as Hloop.
  destruct (forEachSeries deps _ w) as [[[err v| |] w']|]; try done.
  apply Hloop; try done.
  - intros asset w1 Hw1. apply visit_keeps; [|done].
    intros stack' l w2 Hw2. by apply expand_keeps.
  - intros asset w1 Hw1 Hc1. apply visit_completes; try done.
    intros stack' l w2 Hw2. by apply expand_keeps.
  - intros asset w1. apply visit_never_fails.
Qed.

(** X3: when SimpleMergeLinker calls back, the body it has set is the
    bodies of the expanded assets joined by newlines, where the expanded
    assets are pairwise different objects and every entry asset is among
    them: each entry module is linked, and no asset is linked twice.  Path,
    assets and encoding of the composite asset are left as they were. *)
Theorem linker_links_each_entry_once fuel asset st err linked st' :
  SimpleMergeLinker fuel asset context st = Some (Called err linked, st') →
  ∃ expanded,
    linked = set_composite_body asset
               (join newline (map (λ a, sa_body (fields a)) expanded))
    ∧ NoDup (map oid expanded)
    ∧ ∀ d, d ∈ ca_assets asset →
           ∃ o, d = Some o ∧ oid o ∈ map oid expanded.
Proof.
  unfold SimpleMergeLinker.
  set (w0 := mkWalk st [] []).
  assert (Hw0 : tidy [] w0).
  { split; [apply NoDup_nil_2|].
    split; [by intros a Ha%elem_of_nil|].
    split; [by intros a Ha%elem_of_nil|by intros i Hi%elem_of_nil]. }
  assert (Hc0 : covered [] w0).
  { split; [by intros Hn%elem_of_nil|].
    by intros i (o & Hin%elem_of_nil & _). }
  pose proof (expand_keeps fuel [] (ca_assets asset) w0 Hw0) as Hk.
  pose proof (expand_completes fuel [] (ca_assets asset) w0 Hw0 Hc0) as Hc.
  pose proof (expand_never_fails fuel (ca_assets asset) w0) as Hn.
  destruct (_expandDependencies _ _ _ _) as [[[[e|] expanded| |] w']|] eqn:He;
    try done.
  intros [= <- <- <-]. exists expanded.
  assert (Hexp : expanded = w_expanded w').
  { destruct fuel as [|fuel']; [done|]. simpl in He.
    by destruct (forEachSeries _ _ _) as [[[e v| |] w'']|]; simplify_eq. }
  subst expanded. split; [done|].
  destruct Hk as ((Hnd & _) & _). split; [done|].
  destruct Hc as [[_ Hcov] Hall]. intros d Hd.
  destruct (Hall d Hd) as (o & -> & Ho). exists o. split; [done|].
  destruct (Hcov _ Ho) as [?|?%elem_of_nil]; done.
Qed.

End Walks.

(** * Further properties of the cache *)

Section Requests.
Context `{Host}.

(** X4: a request for a path that has no cell and no compiler for its
    extension is answered with the error "No compiler for <resolved path>";
    one with a compiler and no analyzer with "No analyzer for <path of the
    packager>" (the packager's own path, not the asset's).  In both cases
    no object is made and no plugin is called: the store changes in the
    cell of the path only, which holds the error from then on, so that a
    second request gets the same answer. *)
Theorem missing_plugin_error cfg st assetPath :
  _sourceAssets st !! PATH_resolve (basedir cfg) assetPath = None →
  (compiler_for (compilers cfg)
     (PATH_extname (PATH_resolve (basedir cfg) assetPath)) = None →
   ∃ st',
     getSourceAsset cfg assetPath st
       = (Called (Some (Error_ ("No compiler for "
                                +:+ PATH_resolve (basedir cfg) assetPath)))
                 None, st') ∧
     st' = set_cell (PATH_resolve (basedir cfg) assetPath)
             (Settled (Some (Error_ ("No compiler for "
                                     +:+ PATH_resolve (basedir cfg) assetPath)),
                       None)) st ∧
     getSourceAsset cfg assetPath st' = (fst (getSourceAsset cfg assetPath st), st'))
  ∧ (is_Some (compiler_for (compilers cfg)
                (PATH_extname (PATH_resolve (basedir cfg) assetPath))) →
     analyzer cfg = None →
     ∃ st',
       getSourceAsset cfg assetPath st
         = (Called (Some (Error_ ("No analyzer for " +:+ js_string (path cfg))))
                   None, st') ∧
       st' = set_cell (PATH_resolve (basedir cfg) assetPath)
               (Settled (Some (Error_ ("No analyzer for "
                                       +:+ js_string (path cfg))),
                         None)) st ∧
       getSourceAsset cfg assetPath st'
         = (fst (getSourceAsset cfg assetPath st), st')).
Proof.
  intros Hk. rewrite !getSourceAsset_fetch.
  set (key := PATH_resolve (basedir cfg) assetPath) in *.
  split.
  - intros Hc.
    assert (Hf : fetch cfg key st
              = (Called (Some (Error_ ("No compiler for " +:+ key))) None,
                 set_cell key
                   (Settled (Some (Error_ ("No compiler for " +:+ key)), None))
                   st)).
    { unfold fetch, gsa_begin. rewrite Hk, Hc.
      unfold gsa_complete. simpl. rewrite lookup_insert_eq. simpl.
      by rewrite lookup_insert_eq. }
    eexists. split; [exact Hf|]. split; [reflexivity|].
    rewrite Hf. simpl. apply fetch_settled. simpl. by rewrite lookup_insert_eq.
  - intros [c Hc] Ha.
    assert (Hf : fetch cfg key st
              = (Called (Some (Error_ ("No analyzer for "
                                       +:+ js_string (path cfg)))) None,
                 set_cell key
                   (Settled (Some (Error_ ("No analyzer for "
                                           +:+ js_string (path cfg))), None))
                   st)).
    { unfold fetch, gsa_begin. rewrite Hk, Hc, Ha.
      unfold gsa_complete. simpl. rewrite lookup_insert_eq. simpl.
      by rewrite lookup_insert_eq. }
    eexists. split; [exact Hf|]. split; [reflexivity|].
    rewrite Hf. simpl. apply fetch_settled. simpl. by rewrite lookup_insert_eq.
Qed.

(** X5: when the compiler of a new path calls back with an error, the
    analyzer is not called: the request is answered with that error and
    no asset, the cell holds the error, and the only plugin call on
    record is the compiler's. *)
Theorem compiler_error_skips_analyzer cfg st assetPath c a e v :
  _sourceAssets st !! PATH_resolve (basedir cfg) assetPath = None →
  compiler_for (compilers cfg)
    (PATH_extname (PATH_resolve (basedir cfg) assetPath)) = Some c →
  analyzer cfg = Some a →
  c (mkSourceAsset (PATH_resolve (basedir cfg) assetPath) None [])
    (resolve cfg (fs st)) (fs st) = Called (Some e) v →
  ∃ st',
    getSourceAsset cfg assetPath st = (Called (Some e) None, st') ∧
    since st st' = [EvCompile (PATH_resolve (basedir cfg) assetPath)] ∧
    _sourceAssets st' !! PATH_resolve (basedir cfg) assetPath
      = Some (Settled (Some e, None)) ∧
    fs st' = fs st.
Proof.
  intros Hk Hc Ha Hrun. rewrite getSourceAsset_fetch.
  set (key := PATH_resolve (basedir cfg) assetPath) in *.
  unfold fetch, gsa_begin. rewrite Hk, Hc, Ha.
  unfold gsa_complete. simpl. rewrite lookup_insert_eq, Hc, Ha. simpl.
  rewrite Hrun. simpl. rewrite lookup_insert_eq.
  eexists. split; [reflexivity|]. simpl. rewrite lookup_insert_eq.
  split; [|done]. unfold since. simpl.
  by rewrite app_nil_r, drop_app_length.
Qed.

Lemma analyzer_keeps_body a r disk err v :
  JavaScriptAnalyzer a r disk = Called err v →
  sa_body v = sa_body a ∧
  ∀ b, sa_body a = Some b → scan_requires b = [] →
       err = None ∧ sa_dependencies v = sa_dependencies a.
Proof.
  unfold JavaScriptAnalyzer.
  destruct (sa_body a) as [b|] eqn:Hb; [|done].
  destruct (scan_requires b) as [|i ids] eqn:Hs.
  - intros [= <- <-]. split; [done|]. by intros ? [= <-].
  - destruct (resolve_all _ _ _); intros [= <- <-]; (split; [done|]);
      intros ? [= <-]; congruence.
Qed.

Lemma analyzer_calls_back a r disk b :
  sa_body a = Some b → ∃ err v, JavaScriptAnalyzer a r disk = Called err v.
Proof.
  intros Hb. unfold JavaScriptAnalyzer. rewrite Hb.
  destruct (scan_requires b); [eauto|]. destruct (resolve_all _ _ _); eauto.
Qed.

Lemma resolve_all_inr r dir ids ps :
  Forall2 (λ id p, r id dir = inr p) ids ps → resolve_all r dir ids = inr ps.
Proof.
  induction 1 as [|id p ids ps Hid _ IH]; simpl; [done|]. by rewrite Hid, IH.
Qed.

Lemma resolve_all_inl (r : Resolver) dir pre id rest e :
  Forall (λ i, ∃ p, r i dir = inr p) pre → r id dir = inl e →
  resolve_all r dir (pre ++ id :: rest) = inl e.
Proof.
  induction 1 as [|i pre [p Hi] _ IH]; intros Hid; simpl.
  - by rewrite Hid.
  - by rewrite Hi, IH.
Qed.

(** X6: what JavaScriptAnalyzer makes of a compiled asset.  Without a
    require directive the asset stays as it is.  Otherwise the ids are
    resolved against the directory of the asset, in order: if all resolve,
    the resolved paths, one for each id and in the order of the ids,
    become the dependencies; if one does not, the callback gets the error
    of the first such id and the asset stays as it is, with none of the
    paths resolved so far. *)
Theorem analyzer_dependencies a (r : Resolver) disk body :
  sa_body a = Some body →
  (scan_requires body = [] → JavaScriptAnalyzer a r disk = Called None a)
  ∧ (∀ ps, scan_requires body ≠ [] →
       Forall2 (λ id p, r id (PATH_dirname (sa_path a)) = inr p)
               (scan_requires body) ps →
       JavaScriptAnalyzer a r disk = Called None (set_dependencies a ps))
  ∧ (∀ pre id rest e,
       scan_requires body = pre ++ id :: rest →
       Forall (λ i, ∃ p, r i (PATH_dirname (sa_path a)) = inr p) pre →
       r id (PATH_dirname (sa_path a)) = inl e →
       JavaScriptAnalyzer a r disk = Called (Some e) a).
Proof.
  intros Hb. unfold JavaScriptAnalyzer. rewrite Hb. split; [|split].
  - by intros ->.
  - intros ps Hne Hall.
    destruct (scan_requires body) as [|id ids] eqn:Hs; [done|].
    by rewrite (resolve_all_inr _ _ _ _ Hall).
  - intros pre id rest e Hs Hall Hid. rewrite Hs.
    pose proof (resolve_all_inl r _ pre id rest e Hall Hid) as Hr.
    destruct (pre ++ id :: rest) as [|i ids] eqn:Hl; [by destruct pre|].
    by rewrite Hr.
Qed.

(** a request for a path without a cell, with the plugins of the module *)
Lemma fresh_request cfg st assetPath data :
  _sourceAssets st !! PATH_resolve (basedir cfg) assetPath = None →
  compiler_for (compilers cfg)
    (PATH_extname (PATH_resolve (basedir cfg) assetPath))
    = Some JavaScriptCompiler →
  analyzer cfg = Some JavaScriptAnalyzer →
  FS_readFile (PATH_resolve (basedir cfg) assetPath) (fs st) = inr data →
  ∃ err o st',
    getSourceAsset cfg assetPath st = (Called err (Some o), st') ∧
    sa_path (fields o) = PATH_resolve (basedir cfg) assetPath ∧
    sa_body (fields o) = Some data ∧
    (scan_requires data = [] → err = None ∧ sa_dependencies (fields o) = []).
Proof.
  intros Hk Hc Ha Hread. rewrite getSourceAsset_fetch.
  set (key := PATH_resolve (basedir cfg) assetPath) in *.
  unfold fetch, gsa_begin. rewrite Hk, Hc, Ha.
  unfold gsa_complete. simpl. rewrite lookup_insert_eq, Hc, Ha. simpl.
  unfold JavaScriptCompiler at 1. simpl. rewrite Hread.
  destruct (analyzer_calls_back
              (set_body (mkSourceAsset key None []) data)
              (resolve cfg (fs st)) (fs st) data eq_refl)
    as (err & analyzed & Hana).
  rewrite Hana. simpl. rewrite lookup_insert_eq.
  destruct (analyzer_fields _ _ _ _ _ Hana) as (Hp & b & Hb & _).
  exists err, (mkObj (next_id st) analyzed). eexists.
  split; [reflexivity|]. simpl. split; [done|].
  destruct (analyzer_keeps_body _ _ _ _ _ Hana) as [Hbody Hnone].
  split; [done|]. intros Hs. by apply (Hnone data).
Qed.

(** X7: after an invalidate a request reads the file as it is now: with
    the compiler and the analyzer of the module, whatever was cached
    before and whatever the file held then, the asset delivered carries
    the resolved path and the present content of the file as its body. *)
Theorem request_after_invalidate_reads_file cfg p disk assetPath data :
  compiler_for (compilers cfg)
    (PATH_extname (PATH_resolve (basedir cfg) assetPath))
    = Some JavaScriptCompiler →
  analyzer cfg = Some JavaScriptAnalyzer →
  FS_readFile (PATH_resolve (basedir cfg) assetPath) disk = inr data →
  ∃ err o st',
    getSourceAsset cfg assetPath (with_files disk (store (invalidate p)))
      = (Called err (Some o), st') ∧
    sa_path (fields o) = PATH_resolve (basedir cfg) assetPath ∧
    sa_body (fields o) = Some data ∧
    (scan_requires data = [] → err = None ∧ sa_dependencies (fields o) = []).
Proof.
  intros Hc Ha Hread. apply fresh_request; try done.
Qed.

End Requests.

(** ** Builds and writes *)

Section Builds.
Context `{Host}.

(** a build that calls back leaves its answer in the cell *)
Lemma build_settles cfg p err v p1 :
  build cfg p = Some (Called err v, p1) →
  _build p1 = Some (Settled (err, v)).
Proof.
  unfold build. intros Hb.
  destruct (_build p) as [[j ws|ws|[e a]]|] eqn:Hcell; simplify_eq/=.
  - done.
  - destruct (build_body cfg _) as [[[e a| |] q]|]; by simplify_eq/=.
Qed.

Lemma build_settled cfg p err v :
  _build p = Some (Settled (err, v)) → build cfg p = Some (Called err v, p).
Proof. unfold build. by intros ->. Qed.

(** X8: once a build has called back, its answer is the answer of every
    later build of this packager, whatever has happened to the files in
    between and whatever configuration the later build is asked with;
    nothing is loaded, linked or written for it.  (Only invalidate empties
    the cell.) *)
Theorem build_answer_survives_changes cfg cfg' disk p err v p1 :
  build cfg p = Some (Called err v, p1) →
  build cfg' (touch disk p1) = Some (Called err v, touch disk p1)
  ∧ _build (invalidate p1) = None.
Proof.
  intros Hb. split; [|done]. apply build_settled. simpl.
  by apply build_settles in Hb.
Qed.

(** X9: a build whose only entry module cannot be loaded.  The error of
    getSourceAsset becomes the error of the build, with no asset; the
    linker is not called (no stage is recorded), and the failure is kept:
    the next build answers with the same error. *)
Theorem entry_failure_skips_linker cfg p s r e o st1 :
  _build p = None →
  main cfg = MainString s →
  resolve cfg (fs (store p)) s (basedir cfg) = inr r →
  getSourceAsset cfg r (store p) = (Called (Some e) o, st1) →
  ∃ p1, build cfg p = Some (Called (Some e) None, p1)
        ∧ store p1 = st1 ∧ stages p1 = stages p
        ∧ build cfg p1 = Some (Called (Some e) None, p1).
Proof.
  intros Hfresh Hmain Hres Hgsa. unfold build, build_body.
  rewrite Hfresh, Hmain. simpl. rewrite Hres, Hgsa. simpl.
  eexists. split; [reflexivity|]. by repeat split.
Qed.

(** X10: a build with an empty list of entry modules succeeds: the
    SimpleMergeLinker makes the empty body of the empty list of assets, no
    source asset is requested and the cache is left as it was. *)
Theorem empty_main_builds_empty_body cfg p n :
  _build p = None →
  main cfg = MainArray [] →
  linker cfg = Some (SimpleMergeLinker (S n)) →
  minify cfg = false →
  ∃ p1, build cfg p =
          Some (Called None (Some (mkComposite (path cfg) [] (Some "") None)),
                p1)
        ∧ store p1 = store p ∧ stages p1 = stages p ++ [StLink].
Proof.
  intros Hfresh Hmain Hlinker Hminify. unfold build, build_body.
  rewrite Hfresh, Hmain, Hlinker, Hminify. simpl.
  eexists. split; [reflexivity|]. split; [|done]. by destruct (store p).
Qed.

(** X11: the UglifyMinifier changes nothing.  With minify on and this
    minifier, build delivers what it delivers with minify off (whatever
    minifier is configured then), and leaves the same store and the same
    cell; only the recorded stage tells the two apart. *)
Theorem uglify_minifier_changes_nothing b cs a l m pps mn pa p :
  let on_ := mkConfig b cs a l true (Some UglifyMinifier) pps mn pa in
  let off := mkConfig b cs a l false m pps mn pa in
  match build on_ p, build off p with
  | Some (c, p1), Some (c', p1') =>
      c = c' ∧ store p1 = store p1' ∧ _build p1 = _build p1'
  | None, None => True
  | _, _ => False
  end.
Proof.
  intros on_ off. unfold build.
  destruct (_build p) as [[j ws|ws|[e v]]|]; try done.
  assert (Hload : ∀ paths st,
    map_from paths
      (fun path_ st =>
         match resolve on_ (fs st) path_ (basedir on_) with
         | inl e => Some (Thrown e, st)
         | inr resolved => Some (getSourceAsset on_ resolved st)
         end) [] None false st
    = map_from paths
      (fun path_ st =>
         match resolve off (fs st) path_ (basedir off) with
         | inl e => Some (Thrown e, st)
         | inr resolved => Some (getSourceAsset off resolved st)
         end) [] None false st) by reflexivity.
  assert (Hctx : context_of on_ = context_of off) by reflexivity.
  unfold build_body. subst on_ off.
  cbn [main linker minify minifier path postprocessors].
  destruct mn as [|s|paths]; [done| |].
  all: rewrite Hload, Hctx.
  all: match goal with |- context [map_from ?ps ?it [] None false ?st] =>
         destruct (map_from ps it [] None false st) as [[[[e|] v| |] st1]|]
       end; try done.
  all: destruct l as [linker_|]; [|done].
  all: destruct (linker_ _ _ _) as [[[[e|] v'| |] st2]|]; done.
Qed.

(** X12: write goes through build, so writing after a build that has
    called back is the same as writing without having built first: the
    same outcome and the same packager.  And write leaves the answer of
    the build and the cache of source assets alone, so a build after the
    write still gives that answer. *)
Theorem write_reuses_build cfg out (cb : nat) file p err v p1 :
  PATH_resolve1 (output_path cfg out) = inr file →
  build cfg p = Some (Called err v, p1) →
  write cfg out (ArgFunction cb) p1 = write cfg out (ArgFunction cb) p
  ∧ (∀ c p2, write cfg out (ArgFunction cb) p = Some (c, p2) →
       build cfg p2 = Some (Called err v, p2)
       ∧ _sourceAssets (store p2) = _sourceAssets (store p1)).
Proof.
  intros Hfile Hb.
  pose proof (build_settles _ _ _ _ _ Hb) as Hcell.
  pose proof (build_settled cfg _ _ _ Hcell) as Hb1.
  unfold write, output_path in *.
  destruct out as [|s|g]; simpl in *; rewrite Hfile, Hb, Hb1.
  all: split; [done|]; intros c p2 Hw.
  all: destruct err as [e|]; [by simplify_eq|].
  all: destruct v as [asset|]; [|by simplify_eq].
  all: unfold write_file in Hw.
  all: destruct (FS_writeFile _ _ _ _) as [werr disk]; simplify_eq/=.
  all: split; [by apply build_settled|done].
Qed.

(** X13: what a successful build tells.  If a first build calls back
    without an error, it hands over an asset, and the entry modules were
    given, a linker is configured and was run, and with minify on a
    minifier is configured: no success comes without linking, although the
    configuration check of lines 234-240 is never looked at. *)
Theorem build_success_means_linked cfg p v p1 :
  _build p = None →
  build cfg p = Some (Called None v, p1) →
  is_Some v ∧ main cfg ≠ MainUndefined ∧ is_Some (linker cfg)
  ∧ (minify cfg = true → is_Some (minifier cfg))
  ∧ stages p1 = stages p ++ StLink :: (if minify cfg then [StMinify] else []).
Proof.
  intros Hfresh Hb. unfold build in Hb. rewrite Hfresh in Hb.
  destruct (build_body cfg _) as [[[e a| |] q]|] eqn:Hbody; simplify_eq/=.
  split; [|split; [|split; [|split]]].
  5: by apply build_body_stages in Hbody.
  all: unfold build_body in Hbody.
  all: repeat (case_match; simplify_eq/=; try done).
Qed.

(** linking one asset without dependencies *)
Lemma link_leaf n asset context st o :
  ca_assets asset = [Some o] →
  sa_dependencies (fields o) = [] →
  SimpleMergeLinker (S n) asset context st =
    Some (Called None
            (set_composite_body asset (join newline [sa_body (fields o)])),
          st).
Proof.
  intros Hassets Hdeps. unfold SimpleMergeLinker. rewrite Hassets. simpl.
  unfold visit. simpl. rewrite Hdeps. simpl. by destruct st.
Qed.

(** X14: invalidate makes the next build start from the files as they
    are then.  For an entry module without require directives, built with
    the plugins of the module: after an invalidate the build calls back
    without error with an asset whose body is the present content of the
    entry file, whatever an earlier build had delivered. *)
Theorem build_after_invalidate_reads_file cfg p disk s r data n :
  main cfg = MainString s →
  linker cfg = Some (SimpleMergeLinker (S n)) →
  minify cfg = false →
  resolve cfg disk s (basedir cfg) = inr r →
  compiler_for (compilers cfg)
    (PATH_extname (PATH_resolve (basedir cfg) r)) = Some JavaScriptCompiler →
  analyzer cfg = Some JavaScriptAnalyzer →
  FS_readFile (PATH_resolve (basedir cfg) r) disk = inr data →
  scan_requires data = [] →
  ∃ asset p1,
    build cfg (touch disk (invalidate p)) = Some (Called None (Some asset), p1)
    ∧ ca_path asset = path cfg
    ∧ ca_body asset = Some data
    ∧ build cfg p1 = Some (Called None (Some asset), p1).
Proof.
  intros Hmain Hlinker Hminify Hres Hc Ha Hread Hscan.
  unfold build, build_body. rewrite Hmain, Hlinker, Hminify. simpl.
  rewrite Hres.
  set (st := mkStore ∅ (next_id (store p)) disk (trace (store p))).
  destruct (fresh_request cfg st r data) as (err & o & st1 & Hgsa & _ & Hbody & Hdeps);
    try done.
  destruct (Hdeps Hscan) as [-> Hnone].
  rewrite Hgsa. simpl.
  erewrite (link_leaf n _ _ st1 o); [|reflexivity|exact Hnone].
  rewrite Hbody. simpl.
  eexists _, _. split; [reflexivity|]. by repeat split.
Qed.

End Builds.

(** * Worked cases *)

Module Cases.
Import Demo.
#[local] Existing Instance Demo.host.

Lemma source_asset_once_witness :
  match _sourceAssets (cache_after (entry_A 10) quiet two_callers) !! "/D.js"
  with
  | Some (Settled r) =>
      EvDeliver "/D.js" 1 r ∈ events_after (entry_A 10) quiet two_callers
      ∧ EvDeliver "/D.js" 2 r ∈ events_after (entry_A 10) quiet two_callers
      ∧ count (is_compile "/D.js")
              (events_after (entry_A 10) quiet two_callers) = 1
      ∧ (is_Some (snd r) →
         count (is_analyze "/D.js")
               (events_after (entry_A 10) quiet two_callers) = 1)
  | _ => False
  end
  ∧ ∃ j r,
      detached (renew waiting) = [j]
      ∧ j_key j = "/D.js" ∧ j_waiters j = [1]
      ∧ EvDeliver "/D.js" 1 r
          ∈ stale (play (entry_A 10) (overtaking ++ [Late 0]) (renew waiting))
      ∧ cache_after (entry_A 10) waiting (overtaking ++ [Late 0])
        = cache_after (entry_A 10) waiting overtaking.
Proof.
  split.
  - destruct (source_asset_once (entry_A 10) quiet two_callers "/D.js")
      as (_ & _ & Hreq & _ & Hset & _).
    destruct (Hreq "/D.js" 1) as [H1 Hc]; [by left|reflexivity|].
    destruct (Hreq "D.js" 2) as [H2 _]; [right; by left|reflexivity|].
    assert (Hplug : has_plugins (entry_A 10) "/D.js")
      by (split; eexists; reflexivity).
    specialize (Hc Hplug). revert H1 H2 Hset.
    set (c := _sourceAssets (cache_after (entry_A 10) quiet two_callers)
                !! "/D.js").
    assert (Hcell : _sourceAssets (cache_after (entry_A 10) quiet two_callers)
                      !! "/D.js" = c) by reflexivity.
    vm_compute in (value of c). unfold c. cbv beta iota.
    intros H1 H2 Hset.
    destruct (Hset _ _ eq_refl) as (_ & Han & _).
    split; [exact H1|]. split; [exact H2|]. split; [exact Hc|exact Han].
  - destruct (source_asset_once (entry_A 10) waiting overtaking "/D.js")
      as (_ & _ & _ & _ & _ & _ & _ & _ & _ & Hlate).
    set (j := mkJob "/D.js" (mkObj 0 (mkSourceAsset "/D.js" None [])) [1]).
    assert (Hd : detached (play (entry_A 10) overtaking (renew waiting))
                 = [j]) by (vm_compute; reflexivity).
    assert (Hs : stale (play (entry_A 10) overtaking (renew waiting)) = [])
      by (vm_compute; reflexivity).
    set (f := finish (entry_A 10)
                (fs (cache_after (entry_A 10) waiting overtaking))
                (j_key j) (j_asset j)).
    assert (Hf : finish (entry_A 10)
                   (fs (cache_after (entry_A 10) waiting overtaking))
                   (j_key j) (j_asset j) = f) by reflexivity.
    vm_compute in (value of f).
    assert (Hi : detached (play (entry_A 10) overtaking (renew waiting)) !! 0
                 = Some j) by (rewrite Hd; reflexivity).
    destruct (Hlate 0 j _ _ 1 Hi Hf) as [Hdel Hsame]; [by left|].
    rewrite Hs in Hdel.
    eexists j, _. split; [vm_compute; reflexivity|].
    split; [reflexivity|]. split; [reflexivity|].
    split; [exact Hdel|exact Hsame].
Defined.

(** C7: a packager with linker, minifier (minify on) and one postprocessor,
    built twice with no invalidate in between.  Both calls deliver the same
    composite asset, the second from the build cell; linker and minifier
    have run once each, the postprocessor not at all, and the body has no
    banner. *)
Theorem two_builds_skip_postprocessors :
  build_twice full_pipeline (fresh diamond)
    = build full_pipeline (fresh diamond)
  ∧ snd <$> delivered (build_twice full_pipeline (fresh diamond))
    = Some [StLink; StMinify]
  ∧ (λ l, (times StLink l, times StMinify l, times (StPostprocess 0) l))
      <$> (snd <$> delivered (build_twice full_pipeline (fresh diamond)))
    = Some (1, 1, 0)
  ∧ ∃ body, fst <$> delivered (build_twice full_pipeline (fresh diamond))
            = Some (Called None (Some body))
            ∧ String.prefix "/* banner */" body = false.
Proof.
  split; [vm_compute; reflexivity|].
  split; [vm_compute; reflexivity|].
  split; [vm_compute; reflexivity|].
  eexists. split; vm_compute; reflexivity.
Qed.

Lemma build_memoized_diamond :
  _build (fresh diamond) = None
  ∧ match build (entry_A 10) (fresh diamond) with
    | Some (Called err v, p1) =>
        build (entry_A 10) p1 = Some (Called err v, p1)
        ∧ (err = None → stages p1 = [StLink])
    | _ => False
    end.
Proof.
  split; [reflexivity|].
  set (r := build (entry_A 10) (fresh diamond)).
  assert (Hr : build (entry_A 10) (fresh diamond) = r) by reflexivity.
  vm_compute in (value of r).
  exact (build_memoized (entry_A 10) (fresh diamond) _ _ _ eq_refl Hr).
Qed.


Lemma source_asset_shape_witness :
  analyzer (entry_A 10) = Some JavaScriptAnalyzer
  ∧ match
      fst (getSourceAsset (entry_A 10) "/A.js"
             (run (entry_A 10) [Request "/B.js" 1; Request "/A.js" 2]
                  (store (invalidate (fresh diamond)))))
    with
    | Called None (Some obj) =>
        sa_path (fields obj) = "/A.js"
        ∧ ∃ body, sa_body (fields obj) = Some body
                  ∧ (scan_requires body = [] → sa_dependencies (fields obj) = [])
    | _ => False
    end.
Proof.
  split; [reflexivity|].
  set (r := getSourceAsset _ _ _).
  assert (Hr : getSourceAsset (entry_A 10) "/A.js"
                 (run (entry_A 10) [Request "/B.js" 1; Request "/A.js" 2]
                      (store (invalidate (fresh diamond)))) = r) by reflexivity.
  vm_compute in (value of r).
  refine (source_asset_shape (entry_A 10) (fresh diamond) _ "/A.js" _ _
            eq_refl _ Hr).
  intros ext c. simpl. case_decide; [|done].
  intros [= <-]. apply JavaScriptCompiler_keeps_identity.
Defined.

(** C2: over an acyclic dependency set the walk from any roots ends and
    delivers every root, no object twice, each asset after the assets of
    all its dependencies; and on the diamond A -> {B, C}, B -> D, C -> D
    the order is D, B, C, A. *)
Theorem closure_post_order :
  (∀ `{Host} cfg U st0 roots rks fuel,
     closed cfg U st0 → acyclic cfg U st0 → wf st0 →
     assets_of st0 rks roots → (∀ k, k ∈ rks → k ∈ U) →
     length U < fuel →
     ∃ expanded w',
       _expandDependencies fuel (context_of cfg) roots (mkWalk st0 [] [])
         = Some (Called None expanded, w') ∧
       post_order cfg (w_store w') expanded ∧
       (∀ r, Some r ∈ roots → r ∈ expanded))
  ∧ walked_paths
      (_expandDependencies 10 (context_of (entry_A 10)) [Some diamond_A]
         (mkWalk (loaded diamond) [] []))
    = Some ["/D.js"; "/B.js"; "/C.js"; "/A.js"].
Proof.
  split; [|vm_compute; reflexivity].
  intros H cfg U st0 roots rks fuel Hclosed Hacyc Hwf Hroots HU Hfuel.
  by eapply walk_post_order.
Qed.

Lemma diamond_store_wf : wf (loaded diamond).
Proof. exact (fetch_wf (entry_A 10) "/A.js" _ (wf_reset (fresh diamond))). Qed.

Lemma diamond_roots : assets_of (loaded diamond) ["/A.js"] [Some diamond_A].
Proof.
  constructor; [|constructor]. exists diamond_A. split; [done|].
  exists None. vm_compute. reflexivity.
Qed.

Lemma closure_post_order_witness :
  closedb (entry_A 10) diamond_paths (loaded diamond) = true
  ∧ rankedb (entry_A 10) diamond_paths (loaded diamond) diamond_rank = true
  ∧ ∃ expanded w',
      _expandDependencies 10 (context_of (entry_A 10)) [Some diamond_A]
        (mkWalk (loaded diamond) [] [])
        = Some (Called None expanded, w') ∧
      post_order (entry_A 10) (w_store w') expanded ∧
      (∀ r, Some r ∈ [Some diamond_A] → r ∈ expanded).
Proof.
  assert (Hc : closedb (entry_A 10) diamond_paths (loaded diamond) = true)
    by (vm_compute; reflexivity).
  assert (Hr : rankedb (entry_A 10) diamond_paths (loaded diamond) diamond_rank
               = true) by (vm_compute; reflexivity).
  split; [exact Hc|]. split; [exact Hr|].
  refine (proj1 closure_post_order host (entry_A 10) diamond_paths
            (loaded diamond) [Some diamond_A] ["/A.js"] 10
            (closedb_closed _ _ _ Hc)
            (ranked_acyclic _ _ _ _ (closedb_closed _ _ _ Hc) Hr)
            diamond_store_wf diamond_roots _ _).
  - intros k ->%list_elem_of_singleton. by left.
  - simpl. lia.
Defined.

Lemma cyclic_store_wf : wf (loaded cyclic).
Proof. exact (fetch_wf (entry_A 10) "/A.js" _ (wf_reset (fresh cyclic))). Qed.

Lemma cyclic_roots : assets_of (loaded cyclic) ["/A.js"] [Some cyclic_A].
Proof.
  constructor; [|constructor]. exists cyclic_A. split; [done|].
  exists None. vm_compute. reflexivity.
Qed.

Lemma closure_terminates_witness :
  closedb (entry_A 10) cyclic_paths (loaded cyclic) = true
  ∧ edges (entry_A 10) (loaded cyclic) "/A.js" = ["/A.js"; "/P.js"]
  ∧ edges (entry_A 10) (loaded cyclic) "/P.js" = ["/Q.js"]
  ∧ edges (entry_A 10) (loaded cyclic) "/Q.js" = ["/P.js"]
  ∧ ∃ expanded w',
      _expandDependencies 4 (context_of (entry_A 10)) [Some cyclic_A]
        (mkWalk (loaded cyclic) [] [])
        = Some (Called None expanded, w') ∧
      expanded = w_expanded w' ∧
      NoDup (map oid expanded) ∧
      (∀ r, Some r ∈ [Some cyclic_A] → r ∈ expanded).
Proof.
  assert (Hc : closedb (entry_A 10) cyclic_paths (loaded cyclic) = true)
    by (vm_compute; reflexivity).
  split; [exact Hc|]. do 3 (split; [vm_compute; reflexivity|]).
  refine (closure_terminates (entry_A 10) cyclic_paths (loaded cyclic)
            (closedb_closed _ _ _ Hc) [Some cyclic_A] ["/A.js"] 4
            cyclic_store_wf cyclic_roots _ _).
  - intros k ->%list_elem_of_singleton. by left.
  - simpl. lia.
Defined.

(** C4: a packager without main, without linker, or with minify set and no
    minifier.  build builds the configuration error and drops it: what the
    caller sees is a TypeError escaping from the pipeline, in the third
    case after the linker has run; its callback is never called. *)
Theorem configuration_error_dropped :
  delivered (build no_main (fresh diamond))
    = Some (Thrown (TypeError "Cannot read property 'map' of undefined"), [])
  ∧ delivered (build no_linker (fresh diamond))
    = Some (Thrown (TypeError "undefined is not a function"), [])
  ∧ delivered (build no_minifier (fresh diamond))
    = Some (Thrown (TypeError "undefined is not a function"), [StLink]).
Proof. repeat split; vm_compute; reflexivity. Qed.

(** C5: a packager with one postprocessor, which would put a banner in
    front of the body.  build delivers the linked body as it is, having
    run the linker and nothing else, exactly as without postprocessors. *)
Theorem postprocessors_not_invoked :
  delivered (build with_banner (fresh diamond))
    = delivered (build (entry_A 10) (fresh diamond))
  ∧ snd <$> delivered (build with_banner (fresh diamond)) = Some [StLink]
  ∧ ∃ body, fst <$> delivered (build with_banner (fresh diamond))
            = Some (Called None (Some body))
            ∧ String.prefix "/* banner */" body = false.
Proof.
  split; [reflexivity|]. split; [vm_compute; reflexivity|].
  eexists. split; vm_compute; reflexivity.
Qed.

(** C6: A requires B.  Where B requires a module that does not resolve,
    getSourceAsset hands B over together with the error; the walk drops the
    error and the linker delivers a body made of B and A.  Where the
    dependency has no compiler, the walk gets undefined in place of an
    asset and dies on it with a TypeError.  In neither case does the error
    of the dependency reach the caller of the linker. *)
Theorem dependency_error_lost :
  (fst (getSourceAsset (entry_A 10) "/B.js" (store (fresh dangling)))
     = Called (Some (Error_ "Cannot find module './missing'"))
              (Some (mkObj 0 (mkSourceAsset "/B.js"
                                (Some (snd (file "/B.js" ["./missing"] "b;")))
                                [])))
   ∧ delivered (build (entry_A 10) (fresh dangling))
     = Some (Called None
               (Some (snd (file "/B.js" ["./missing"] "b;") +:+ newline +:+
                      snd (file "/A.js" ["./B"] "a;"))),
             [StLink]))
  ∧ (fst (getSourceAsset (entry_A 10) "/notes.txt" (store (fresh uncompilable)))
     = Called (Some (Error_ "No compiler for /notes.txt")) None
   ∧ delivered (build (entry_A 10) (fresh uncompilable))
     = Some (Thrown (TypeError
                       "Cannot read property 'dependencies' of undefined"),
             [StLink])).
Proof. repeat split; vm_compute; reflexivity. Qed.

End Cases.

(** ** The further properties at concrete inputs *)

Module MoreCases.
Import Demo.
#[local] Existing Instance Demo.host.

Lemma start_tidy st : tidy [] (start st).
Proof.
  split; [apply NoDup_nil_2|].
  split; [by intros a Ha%elem_of_nil|].
  split; [by intros a Ha%elem_of_nil|by intros i Hi%elem_of_nil].
Defined.

Lemma walk_keeps_arrays_tidy_witness :
  tidy [] (start (loaded diamond))
  ∧ keeps [] (start (loaded diamond))
      (_expandDependencies 10 (context_of (entry_A 10)) [Some diamond_A]
         (start (loaded diamond))).
Proof.
  split; [apply start_tidy|].
  exact (walk_keeps_arrays_tidy (context_of (entry_A 10)) 10 [Some diamond_A]
           (start (loaded diamond)) (start_tidy _)).
Defined.

Lemma missing_plugin_error_witness :
  _sourceAssets (store (fresh uncompilable)) !! "/notes.txt" = None
  ∧ ∃ st',
      getSourceAsset (entry_A 10) "/notes.txt" (store (fresh uncompilable))
        = (Called (Some (Error_ "No compiler for /notes.txt")) None, st')
      ∧ getSourceAsset (entry_A 10) "/notes.txt" st'
        = (Called (Some (Error_ "No compiler for /notes.txt")) None, st').
Proof.
  split; [reflexivity|].
  destruct (missing_plugin_error (entry_A 10) (store (fresh uncompilable))
              "/notes.txt" eq_refl) as [Hnone _].
  destruct (Hnone eq_refl) as (st' & Hfirst & -> & Hsecond).
  eexists. split; [exact Hfirst|]. rewrite Hsecond, Hfirst. reflexivity.
Defined.

Lemma compiler_error_skips_analyzer_witness :
  FS_readFile "/missing.js" diamond
    = inl (Error_ "ENOENT, open '/missing.js'")
  ∧ ∃ st',
      getSourceAsset (entry_A 10) "/missing.js" (store (fresh diamond))
        = (Called (Some (Error_ "ENOENT, open '/missing.js'")) None, st')
      ∧ since (store (fresh diamond)) st' = [EvCompile "/missing.js"]
      ∧ _sourceAssets st' !! "/missing.js"
        = Some (Settled (Some (Error_ "ENOENT, open '/missing.js'"), None))
      ∧ fs st' = diamond.
Proof.
  split; [reflexivity|].
  exact (compiler_error_skips_analyzer (entry_A 10) (store (fresh diamond))
           "/missing.js" JavaScriptCompiler JavaScriptAnalyzer
           (Error_ "ENOENT, open '/missing.js'")
           (mkSourceAsset "/missing.js" None [])
           eq_refl eq_refl eq_refl eq_refl).
Defined.

Lemma request_after_invalidate_reads_file_witness :
  FS_readFile "/D.js" edited = inr "d2;"
  ∧ ∃ err o st',
      getSourceAsset (entry_A 10) "/D.js"
        (with_files edited (store (invalidate (fresh diamond))))
        = (Called err (Some o), st')
      ∧ sa_path (fields o) = "/D.js"
      ∧ sa_body (fields o) = Some "d2;"
      ∧ (scan_requires "d2;" = [] →
         err = None ∧ sa_dependencies (fields o) = []).
Proof.
  split; [reflexivity|].
  exact (request_after_invalidate_reads_file (entry_A 10) (fresh diamond)
           edited "/D.js" "d2;" eq_refl eq_refl eq_refl).
Defined.

Lemma analyzer_dependencies_witness :
  sa_body (fields diamond_A) = Some (snd (file "/A.js" ["./B"; "./C"] "a;"))
  ∧ JavaScriptAnalyzer (mkSourceAsset "/A.js" (sa_body (fields diamond_A)) [])
      (resolve (entry_A 10) diamond) diamond
    = Called None (fields diamond_A).
Proof.
  split; [reflexivity|].
  pose proof (analyzer_dependencies
                (mkSourceAsset "/A.js" (sa_body (fields diamond_A)) [])
                (resolve (entry_A 10) diamond) diamond
                (snd (file "/A.js" ["./B"; "./C"] "a;")) eq_refl)
    as (_ & Hall & _).
  apply (Hall ["/B.js"; "/C.js"]).
  - vm_compute. discriminate.
  - change (scan_requires (snd (file "/A.js" ["./B"; "./C"] "a;")))
      with ["./B"; "./C"].
    repeat constructor.
Defined.

Lemma build_answer_survives_changes_witness :
  match build (entry_A 10) (fresh diamond) with
  | Some (Called err v, p1) =>
      build no_main (touch edited p1) = Some (Called err v, touch edited p1)
      ∧ _build (invalidate p1) = None
  | _ => False
  end.
Proof.
  set (r := build (entry_A 10) (fresh diamond)).
  assert (Hr : build (entry_A 10) (fresh diamond) = r) by reflexivity.
  vm_compute in (value of r).
  exact (build_answer_survives_changes (entry_A 10) no_main edited
           (fresh diamond) _ _ _ Hr).
Defined.

Lemma entry_failure_skips_linker_witness :
  resolve (config 10 (MainString "./notes.txt")) uncompilable "./notes.txt" "/"
    = inr "/notes.txt"
  ∧ ∃ p1,
      build (config 10 (MainString "./notes.txt")) (fresh uncompilable)
        = Some (Called (Some (Error_ "No compiler for /notes.txt")) None, p1)
      ∧ stages p1 = []
      ∧ build (config 10 (MainString "./notes.txt")) p1
        = Some (Called (Some (Error_ "No compiler for /notes.txt")) None, p1).
Proof.
  split; [reflexivity|].
  destruct (entry_failure_skips_linker
              (config 10 (MainString "./notes.txt")) (fresh uncompilable)
              "./notes.txt" "/notes.txt"
              (Error_ "No compiler for /notes.txt") None
              (snd (getSourceAsset (config 10 (MainString "./notes.txt"))
                      "/notes.txt" (store (fresh uncompilable))))
              eq_refl eq_refl eq_refl eq_refl)
    as (p1 & Hb & _ & Hs & Hb').
  exists p1. split; [exact Hb|]. split; [exact Hs|exact Hb'].
Defined.

Lemma empty_main_builds_empty_body_witness :
  linker (config 10 (MainArray [])) = Some (SimpleMergeLinker 10)
  ∧ ∃ p1,
      build (config 10 (MainArray [])) (fresh diamond)
        = Some (Called None
                  (Some (mkComposite (Some "/out.js") [] (Some "") None)), p1)
      ∧ store p1 = store (fresh diamond)
      ∧ stages p1 = [StLink].
Proof.
  split; [reflexivity|].
  exact (empty_main_builds_empty_body (config 10 (MainArray []))
           (fresh diamond) 9 eq_refl eq_refl eq_refl eq_refl).
Defined.

Lemma write_reuses_build_witness :
  PATH_resolve1 (output_path (entry_A 10) ArgUndefined) = inr "/out.js"
  ∧ match build (entry_A 10) (fresh diamond) with
    | Some (Called err v, p1) =>
        write (entry_A 10) ArgUndefined (ArgFunction 7) p1
          = write (entry_A 10) ArgUndefined (ArgFunction 7) (fresh diamond)
        ∧ ∀ c p2,
            write (entry_A 10) ArgUndefined (ArgFunction 7) (fresh diamond)
              = Some (c, p2) →
            build (entry_A 10) p2 = Some (Called err v, p2)
            ∧ _sourceAssets (store p2) = _sourceAssets (store p1)
    | _ => False
    end.
Proof.
  split; [reflexivity|].
  set (r := build (entry_A 10) (fresh diamond)).
  assert (Hr : build (entry_A 10) (fresh diamond) = r) by reflexivity.
  vm_compute in (value of r).
  exact (write_reuses_build (entry_A 10) ArgUndefined 7 "/out.js"
           (fresh diamond) _ _ _ eq_refl Hr).
Defined.

Lemma build_after_invalidate_reads_file_witness :
  FS_readFile "/D.js" edited = inr "d2;"
  ∧ ∃ asset p1,
      build (config 10 (MainString "./D")) (touch edited (invalidate (fresh diamond)))
        = Some (Called None (Some asset), p1)
      ∧ ca_path asset = Some "/out.js"
      ∧ ca_body asset = Some "d2;"
      ∧ build (config 10 (MainString "./D")) p1
        = Some (Called None (Some asset), p1).
Proof.
  split; [reflexivity|].
  exact (build_after_invalidate_reads_file (config 10 (MainString "./D"))
           (fresh diamond) edited "./D" "/D.js" "d2;" 9
           eq_refl eq_refl eq_refl eq_refl eq_refl eq_refl eq_refl eq_refl).
Defined.

Lemma linker_links_each_entry_once_witness :
  match
    SimpleMergeLinker 10 bundle (context_of (entry_A 10)) (loaded diamond)
  with
  | Some (Called err linked, st') =>
      ∃ expanded,
        linked = set_composite_body bundle
                   (join newline (map (λ a, sa_body (fields a)) expanded))
        ∧ NoDup (map oid expanded)
        ∧ ∀ d, d ∈ ca_assets bundle →
               ∃ o, d = Some o ∧ oid o ∈ map oid expanded
  | _ => False
  end.
Proof.
  set (r := SimpleMergeLinker 10 bundle (context_of (entry_A 10))
              (loaded diamond)).
  assert (Hr : SimpleMergeLinker 10 bundle (context_of (entry_A 10))
                 (loaded diamond) = r) by reflexivity.
  vm_compute in (value of r).
  exact (linker_links_each_entry_once (context_of (entry_A 10)) 10 bundle
           (loaded diamond) _ _ _ Hr).
Defined.

Lemma build_success_means_linked_witness :
  _build (fresh diamond) = None
  ∧ match build (entry_A 10) (fresh diamond) with
    | Some (Called None v, p1) =>
        is_Some v ∧ main (entry_A 10) ≠ MainUndefined
        ∧ is_Some (linker (entry_A 10))
        ∧ (minify (entry_A 10) = true → is_Some (minifier (entry_A 10)))
        ∧ stages p1 = [StLink]
    | _ => False
    end.
Proof.
  split; [reflexivity|].
  set (r := build (entry_A 10) (fresh diamond)).
  assert (Hr : build (entry_A 10) (fresh diamond) = r) by reflexivity.
  vm_compute in (value of r).
  exact (build_success_means_linked (entry_A 10) (fresh diamond) _ _
           eq_refl Hr).
Defined.

End MoreCases.
